(** * go-ewah: an EWAH-compressed bitmap (bitmap.go)

    A shallow embedding of [bitmap.go]: the running-length-word codec, the
    [Bitmap] structure with [Set], [Get], [Bits] and [size], and the
    serializer ([Write], [FromReader], [FromBytes]).

    Machine integers are values of [Z] with the wrap-around of every
    operation written out.  Go's [int] is taken to be 64 bits wide (the
    amd64 target of the repository's benchmarks). *)

From Stdlib Require Import ZArith Lia Bool List.
From coqutil Require Import Z.bitblast.
From stdpp Require Import base list.
Import ListNotations.

#[local] Open Scope Z_scope.

(** ** Machine integers *)

Module Int.

(** Conversion to an unsigned 64-bit, unsigned 32-bit and signed 64-bit
    integer: the low bits are kept. *)
Definition uint64 (z : Z) : Z := z mod 2 ^ 64.
Definition uint32 (z : Z) : Z := z mod 2 ^ 32.
Definition int64 (z : Z) : Z := (z + 2 ^ 63) mod 2 ^ 64 - 2 ^ 63.

Definition MaxUint32 : Z := 2 ^ 32 - 1.
Definition MaxInt64 : Z := 2 ^ 63 - 1.
Definition MinInt64 : Z := - 2 ^ 63.

Definition is_uint64 (z : Z) : Prop := 0 <= z < 2 ^ 64.
Definition is_uint32 (z : Z) : Prop := 0 <= z < 2 ^ 32.
Definition is_int64 (z : Z) : Prop := - 2 ^ 63 <= z < 2 ^ 63.

(** [^x] on a uint64. *)
Definition not64 (x : Z) : Z := Z.lxor (Z.ones 64) x.

(** [x << s] and [x >> s] on a uint64 with an unsigned shift count: a
    count of 64 or more gives 0. *)
Definition shl64 (x s : Z) : Z :=
  if s <? 64 then uint64 (Z.shiftl x s) else 0.
Definition shr64 (x s : Z) : Z :=
  if s <? 64 then Z.shiftr x s else 0.

(** Signed 64-bit arithmetic; [/] and [%] truncate toward zero. *)
Definition add64 (x y : Z) : Z := int64 (x + y).
Definition sub64 (x y : Z) : Z := int64 (x - y).
Definition mul64 (x y : Z) : Z := int64 (x * y).
Definition div64 (x y : Z) : Z := int64 (Z.quot x y).
Definition rem64 (x y : Z) : Z := Z.rem x y.

End Int.
Import Int.

(** ** The running length word *)

Definition allones : Z := not64 0.
Definition maxUint31 : Z := Z.shiftr (uint32 (Z.lxor (Z.ones 32) 0)) 1.

Definition bmask : Z := shl64 1 63.
Definition kmask : Z := shl64 (shr64 (not64 0) 32) 31.
Definition lmask : Z := shr64 (not64 0) 33.

Definition newRlw (b : bool) (k l : Z) : Z :=
  let bit := if b then 1 else 0 in
  Z.lor (Z.lor (shl64 bit 63) (shl64 k 31)) l.

Definition rlw_b (r : Z) : bool :=
  negb (shr64 (Z.land r bmask) 63 =? 0).

Definition rlw_k (r : Z) : Z :=
  uint32 (shr64 (Z.land r kmask) 31).

Definition rlw_l (r : Z) : Z :=
  uint32 (Z.land r lmask).

Definition rlw_setk (r k : Z) : Z :=
  Z.lor (Z.land r (not64 kmask)) (shl64 k 31).

Definition rlw_setl (r l : Z) : Z :=
  Z.lor (Z.land r (not64 lmask)) l.

(** [setbit] sets to 1 the bit [idx], counted from the most significant. *)
Definition setbit (word idx : Z) : Z :=
  Z.lor word (shl64 1 (uint64 (uint64 (64 - idx) - 1))).

(** ** Outcomes of operations that may panic *)

(** Indexing a slice out of range is a run-time panic in Go. *)
Inductive outcome (A : Type) : Type :=
  | Done (a : A)
  | Panic.
Arguments Done {A} a.
Arguments Panic {A}.

#[global] Instance outcome_ret : MRet outcome := @Done.
#[global] Instance outcome_bind : MBind outcome := fun A B f m =>
  match m with
  | Done a => f a
  | Panic => Panic
  end.

Definition len {A : Type} (s : list A) : Z := Z.of_nat (length s).

(** [s[i]] as a read. *)
Definition index (s : list Z) (i : Z) : outcome Z :=
  if i <? 0 then Panic
  else match s !! Z.to_nat i with
       | Some x => Done x
       | None => Panic
       end.

(** ** The bitmap *)

(** The errors of the package: [ErrInvalidBitSet], the two causes
    [io.ReadAtLeast] reports on a short stream, and the decoding errors of
    [FromReader], which wrap their cause and name the field. *)
Inductive error : Type :=
  | ErrInvalidBitSet
  | EOF
  | ErrUnexpectedEOF
  | CantReadBits (cause : error)
  | CantReadWords (cause : error)
  | CantReadWord (ith : Z) (cause : error)
  | CantReadLastrlw (cause : error).

Record Bitmap : Type := mkBitmap {
  n : Z;           (* int64: the number of bits in the bitmap *)
  w : list Z;      (* []uint64: the words *)
  lastrlw : Z      (* int: index of the RLW being written, -1 when none *)
}.

Definition New : Bitmap := {| n := 0; w := []; lastrlw := -1 |}.

Definition Bitmap_Bits (b : Bitmap) : Z := uint32 (n b).

Definition Bitmap_size (b : Bitmap) : Z :=
  let bn := mul64 (div64 (n b) 64) 64 in
  if negb (rem64 (n b) 64 =? 0) then add64 bn 64 else bn.

Definition Bitmap_Bytes (b : Bitmap) : Z :=
  div64 (int64 (len (w b) * 64)) 8.

Definition Bitmap_Reset (b : Bitmap) : Bitmap :=
  {| n := 0; w := []; lastrlw := -1 |}.

(** [Set] mutates the bitmap and returns an error or nil; the embedding
    returns the bitmap after the call next to the error. *)
Definition Bitmap_Set (b : Bitmap) (pos : Z)
  : outcome (Bitmap * option error) :=
  if n b >? pos then Done (b, Some ErrInvalidBitSet) else
  let b := if lastrlw b <? 0
           then {| n := n b; w := w b ++ [newRlw false 0 0]; lastrlw := 0 |}
           else b in
  let last := len (w b) - 1 in
  r ← index (w b) (lastrlw b);
  let at_rlw := Z.to_nat (lastrlw b) in
  let idx := uint64 (rem64 pos 64) in
  let bn := Bitmap_size b in
  if bn >? pos then
    lit ← index (w b) last;
    let ws := <[Z.to_nat last := setbit lit idx]> (w b) in
    if setbit lit idx =? allones then
      if rlw_b r && (rlw_l r =? 1) && (rlw_k r <? MaxUint32) then
        let r := rlw_setk r (uint32 (rlw_k r + 1)) in
        let r := rlw_setl r 0 in
        let ws := <[at_rlw := r]> ws in
        Done ({| n := add64 pos 1; w := take (Z.to_nat last) ws;
                 lastrlw := lastrlw b |}, None)
      else
        let r := rlw_setl r (uint32 (rlw_l r - 1)) in
        let ws := <[Z.to_nat last := newRlw true 1 0]> ws in
        let ws := <[at_rlw := r]> ws in
        Done ({| n := add64 pos 1; w := ws; lastrlw := last |}, None)
    else
      Done ({| n := add64 pos 1; w := ws; lastrlw := lastrlw b |}, None)
  else
    let k := div64 (sub64 pos bn) 64 in
    let literal := setbit 0 idx in
    if (k =? 0) && (uint32 (rlw_l r + 1) <=? maxUint31) then
      let r := rlw_setl r (uint32 (rlw_l r + 1)) in
      let ws := <[at_rlw := r]> (w b) in
      Done ({| n := add64 pos 1; w := ws ++ [literal];
               lastrlw := lastrlw b |}, None)
    else if (k >? 0) && (add64 (rlw_k r) k <=? MaxUint32) then
      let r := rlw_setk r (uint32 (rlw_k r + uint32 k)) in
      let r := rlw_setl r (uint32 (rlw_l r + 1)) in
      let ws := <[at_rlw := r]> (w b) in
      Done ({| n := add64 pos 1; w := ws ++ [literal];
               lastrlw := lastrlw b |}, None)
    else
      let ws := w b ++ [newRlw false (uint32 (sub64 (sub64 k MaxUint32) 1)) 1] in
      let ws := <[at_rlw := r]> ws in
      Done ({| n := add64 pos 1; w := ws ++ [literal];
               lastrlw := len ws - 1 |}, None).

(** The inner loop of [Get], [for j := j; j <= int(word.l()); j++], with
    [cnt] iterations left. *)
Inductive inner_result : Type :=
  | Return (v : bool)
  | Crash
  | Fallthrough (acc : Z).

Fixpoint Get_literals (ws : list Z) (pos i : Z) (cnt : nat) (j acc : Z)
  : inner_result :=
  match cnt with
  | O => Fallthrough acc
  | S cnt =>
      if pos <? add64 acc 64 then
        match index ws (i + j) with
        | Done word =>
            let mask := shl64 1 (uint64 (63 - uint64 (sub64 pos acc))) in
            Return (negb (Z.land word mask =? 0))
        | Panic => Crash
        end
      else Get_literals ws pos i cnt (j + 1) (add64 acc 64)
  end.

(** The outer loop of [Get], [for i := i; i < len(b.w); i++]; every
    iteration advances [i], so [length ws] iterations are enough, and
    [None] is only returned when the fuel is too small. *)
Fixpoint Get_blocks (fuel : nat) (ws : list Z) (pos i acc : Z)
  : option (outcome bool) :=
  match fuel with
  | O => None
  | S fuel =>
      if i <? len ws then
        match index ws i with
        | Panic => Some Panic
        | Done word =>
            let kb := mul64 (rlw_k word) 64 in
            if pos <? add64 acc kb then Some (Done (rlw_b word)) else
            let acc := add64 acc kb in
            let l := rlw_l word in
            if (l >? 0) && (pos <? add64 acc (mul64 l 64)) then
              match Get_literals ws pos i (Z.to_nat l) 1 acc with
              | Return v => Some (Done v)
              | Crash => Some Panic
              | Fallthrough acc => Get_blocks fuel ws pos (i + l + 1) acc
              end
            else
              Get_blocks fuel ws pos (i + l + 1) (add64 acc (mul64 l 64))
        end
      else Some (Done false)
  end.

Definition Bitmap_Get (b : Bitmap) (pos : Z) : option (outcome bool) :=
  if pos >=? n b then Some (Done false)
  else Get_blocks (S (length (w b))) (w b) pos 0 0.

(** A run of [Set] calls that must all succeed. *)
Fixpoint sets (b : Bitmap) (ps : list Z) : option Bitmap :=
  match ps with
  | [] => Some b
  | p :: ps =>
      match Bitmap_Set b p with
      | Done (b', None) => sets b' ps
      | _ => None
      end
  end.

(** ** The serializer *)

(** [encoding/binary]'s two byte orders; a byte is a value below 256. *)
Inductive ByteOrder : Type := BigEndian | LittleEndian.

Definition byte (z : Z) : Z := Z.land z 255.

Definition le_bytes32 (v : Z) : list Z :=
  [byte v; byte (Z.shiftr v 8); byte (Z.shiftr v 16); byte (Z.shiftr v 24)].

Definition le_bytes64 (v : Z) : list Z :=
  [byte v; byte (Z.shiftr v 8); byte (Z.shiftr v 16); byte (Z.shiftr v 24);
   byte (Z.shiftr v 32); byte (Z.shiftr v 40); byte (Z.shiftr v 48);
   byte (Z.shiftr v 56)].

Definition PutUint32 (bo : ByteOrder) (v : Z) : list Z :=
  match bo with
  | LittleEndian => le_bytes32 v
  | BigEndian => rev (le_bytes32 v)
  end.

Definition PutUint64 (bo : ByteOrder) (v : Z) : list Z :=
  match bo with
  | LittleEndian => le_bytes64 v
  | BigEndian => rev (le_bytes64 v)
  end.

Definition le_uint32 (b : list Z) : Z :=
  match b with
  | [b0; b1; b2; b3] =>
      Z.lor (Z.lor (Z.lor b0 (Z.shiftl b1 8)) (Z.shiftl b2 16)) (Z.shiftl b3 24)
  | _ => 0
  end.

Definition le_uint64 (b : list Z) : Z :=
  match b with
  | [b0; b1; b2; b3; b4; b5; b6; b7] =>
      Z.lor (Z.lor (Z.lor (Z.lor (Z.lor (Z.lor (Z.lor
        b0 (Z.shiftl b1 8)) (Z.shiftl b2 16)) (Z.shiftl b3 24))
        (Z.shiftl b4 32)) (Z.shiftl b5 40)) (Z.shiftl b6 48)) (Z.shiftl b7 56)
  | _ => 0
  end.

Definition Uint32 (bo : ByteOrder) (b : list Z) : Z :=
  match bo with
  | LittleEndian => le_uint32 b
  | BigEndian => le_uint32 (rev b)
  end.

Definition Uint64 (bo : ByteOrder) (b : list Z) : Z :=
  match bo with
  | LittleEndian => le_uint64 b
  | BigEndian => le_uint64 (rev b)
  end.

(** The writer is a [bytes.Buffer]: [Write] appends and reports every byte
    written, so the short-write branches are never taken.  A writer state
    is the bytes written so far. *)
Definition writeUint32 (out : list Z) (bo : ByteOrder) (num : Z)
  : list Z * option error :=
  (out ++ PutUint32 bo num, None).

Definition writeUint64 (out : list Z) (bo : ByteOrder) (num : Z)
  : list Z * option error :=
  (out ++ PutUint64 bo num, None).

Fixpoint writeWords (out : list Z) (bo : ByteOrder) (ws : list Z)
  : list Z * option error :=
  match ws with
  | [] => (out, None)
  | word :: ws =>
      match writeUint64 out bo word with
      | (out, None) => writeWords out bo ws
      | (out, Some e) => (out, Some e)
      end
  end.

(** [Write] returns the writer after the call, the byte count and the
    error. *)
Definition Bitmap_Write (b : Bitmap) (out : list Z) (bo : ByteOrder)
  : list Z * Z * option error :=
  match writeUint32 out bo (Bitmap_Bits b) with
  | (out, Some e) => (out, 0, Some e)
  | (out, None) =>
  match writeUint32 out bo (uint32 (len (w b))) with
  | (out, Some e) => (out, 0, Some e)
  | (out, None) =>
  match writeWords out bo (w b) with
  | (out, Some e) => (out, 0, Some e)
  | (out, None) =>
  match writeUint32 out bo (uint32 (lastrlw b)) with
  | (out, Some e) => (out, 0, Some e)
  | (out, None) => (out, add64 (4 * 3) (mul64 (len (w b)) 8), None)
  end end end end.

(** The reader is the unread part of a byte stream; [io.ReadAtLeast] fills
    the buffer or fails with [EOF] (nothing left) or [ErrUnexpectedEOF]. *)
Definition ReadAtLeast (r : list Z) (min : nat) : list Z * (error + list Z) :=
  if (length r <? min)%nat
  then ([], inl (match r with [] => EOF | _ => ErrUnexpectedEOF end))
  else (drop min r, inr (take min r)).

Definition readUint32 (r : list Z) (bo : ByteOrder) : list Z * (error + Z) :=
  match ReadAtLeast r 4 with
  | (r, inl e) => (r, inl e)
  | (r, inr buf) => (r, inr (Uint32 bo buf))
  end.

Definition readUint64 (r : list Z) (bo : ByteOrder) : list Z * (error + Z) :=
  match ReadAtLeast r 8 with
  | (r, inl e) => (r, inl e)
  | (r, inr buf) => (r, inr (Uint64 bo buf))
  end.

(** The loop [for i := i; i < int(words); i++] of [FromReader], with [cnt]
    words left to read. *)
Fixpoint readWords (r : list Z) (bo : ByteOrder) (cnt : nat) (i : Z)
  : list Z * (error + list Z) :=
  match cnt with
  | O => (r, inr [])
  | S cnt =>
      match readUint64 r bo with
      | (r, inl e) => (r, inl (CantReadWord (i + 1) e))
      | (r, inr word) =>
          match readWords r bo cnt (i + 1) with
          | (r, inl e) => (r, inl e)
          | (r, inr ws) => (r, inr (word :: ws))
          end
      end
  end.

Definition FromReader (r : list Z) (bo : ByteOrder) : error + Bitmap :=
  match readUint32 r bo with
  | (_, inl e) => inl (CantReadBits e)
  | (r, inr bits) =>
  match readUint32 r bo with
  | (_, inl e) => inl (CantReadWords e)
  | (r, inr words) =>
  match readWords r bo (Z.to_nat words) 0 with
  | (_, inl e) => inl e
  | (r, inr ws) =>
  match readUint32 r bo with
  | (_, inl e) => inl (CantReadLastrlw e)
  | (_, inr last) =>
      inr {| n := int64 bits; w := ws; lastrlw := int64 last |}
  end end end end.

Definition FromBytes (b : list Z) (bo : ByteOrder) : error + Bitmap :=
  FromReader b bo.

(** A bitmap built from the empty one by successful [Set] calls. *)
Inductive reachable : Bitmap -> Prop :=
  | reachable_New : reachable New
  | reachable_Set b pos b' :
      reachable b -> Bitmap_Set b pos = Done (b', None) -> reachable b'.

(** The bitmap after the first statement of [Set], which installs an
    empty RLW when there is none. *)
Definition primed (b : Bitmap) : Bitmap :=
  if lastrlw b <? 0
  then {| n := n b; w := w b ++ [newRlw false 0 0]; lastrlw := 0 |}
  else b.

(** ** Block structure *)

(** Walking the words from index [i] in steps of [1 + l]: the index of the
    RLW whose block ends exactly at the end of the array, if the walk
    ends there. *)
Fixpoint walk (fuel : nat) (ws : list Z) (i : Z) : option Z :=
  match fuel with
  | O => None
  | S fuel =>
      match index ws i with
      | Panic => None
      | Done r =>
          let next := i + 1 + rlw_l r in
          if next =? len ws then Some i
          else if next <? len ws then walk fuel ws next
          else None
      end
  end.

Definition block_structure (b : Bitmap) : Prop :=
  match w b with
  | [] => lastrlw b < 0
  | _ => walk (length (w b)) (w b) 0 = Some (lastrlw b)
  end.

(** What every bitmap built by [Set] satisfies: the words and the bit count
    are machine integers, the active index is inside the array once there
    is a word, and a partly filled last chunk is a literal word, after the
    active RLW, whose lowest bit is still clear. *)
Record well_formed (b : Bitmap) : Prop := {
  wf_words : Forall is_uint64 (w b);
  wf_n : is_int64 (n b);
  wf_lastrlw : b = New \/ 0 <= lastrlw b < len (w b);
  wf_partial :
    rem64 (n b) 64 <> 0 ->
    lastrlw b < len (w b) - 1 /\
    exists lit, index (w b) (len (w b) - 1) = Done lit /\
                Z.testbit lit 0 = false
}.

(** The bitmap after [Set 0], [Set 64], ..., [Set (64 * (m - 1))]: one RLW
    followed by [m] literal words, one per chunk. *)
Definition many_literals (m : nat) : Bitmap :=
  {| n := 64 * (Z.of_nat m - 1) + 1;
     w := newRlw false 0 (Z.of_nat m) :: replicate m (2 ^ 63);
     lastrlw := 0 |}.

(** A byte of a stream. *)
Definition is_byte (z : Z) : Prop := 0 <= z < 256.

(** The cause [io.ReadAtLeast] reports when the stream [r] is too short. *)
Definition short_read (r : list Z) : error :=
  match r with [] => EOF | _ => ErrUnexpectedEOF end.

(** The walk as a relation: [path ws i j] when stepping by [1 + l] from the
    RLW at [i] passes through [j]. *)
Inductive path (ws : list Z) : Z -> Z -> Prop :=
  | path_here i : path ws i i
  | path_next i r j :
      index ws i = Done r -> path ws (i + 1 + rlw_l r) j -> path ws i j.

(** The walk from index 0 passes through the active RLW, whose block ends
    with the array. *)
Definition structured (b : Bitmap) : Prop :=
  path (w b) 0 (lastrlw b) /\
  exists r, index (w b) (lastrlw b) = Done r /\
            lastrlw b + 1 + rlw_l r = len (w b).

(** ** The bits a word array stands for *)

(** The 64-bit chunks encoded from the RLW at index [i] on: each block
    stands for [k] chunks filled with its repeated bit, followed by its [l]
    literal words. *)
Fixpoint chunks (fuel : nat) (ws : list Z) (i : Z) : list Z :=
  match fuel with
  | O => []
  | S fuel =>
      match index ws i with
      | Panic => []
      | Done r =>
          replicate (Z.to_nat (rlw_k r)) (if rlw_b r then allones else 0)
          ++ take (Z.to_nat (rlw_l r)) (drop (Z.to_nat (i + 1)) ws)
          ++ chunks fuel ws (i + 1 + rlw_l r)
      end
  end.

(** Bit [pos] of a list of chunks, the most significant bit of a chunk
    first; false past the end. *)
Definition bit_at (cs : list Z) (pos : Z) : bool :=
  match cs !! Z.to_nat (pos / 64) with
  | Some c => Z.testbit c (63 - pos mod 64)
  | None => false
  end.

Definition Bitmap_chunks (b : Bitmap) : list Z :=
  chunks (length (w b)) (w b) 0.

(** A word array cut into its blocks, with the chunks it stands for. *)
Inductive blocks : list Z -> list Z -> Prop :=
  | blocks_nil : blocks [] []
  | blocks_cons r lits rest cs :
      len lits = rlw_l r -> blocks rest cs ->
      blocks (r :: lits ++ rest)
             (replicate (Z.to_nat (rlw_k r)) (if rlw_b r then allones else 0)
              ++ lits ++ cs).

(** Positions that follow [p] in ascending order without ever skipping a
    whole chunk: each one lies in the chunk of the one before or in the
    next chunk. *)
Fixpoint dense_from (p : Z) (ps : list Z) : Prop :=
  match ps with
  | [] => True
  | q :: ps => p < q /\ q / 64 <= p / 64 + 1 /\ dense_from q ps
  end.

(** Whether [q] is one of the positions [ps]. *)
Definition was_set (ps : list Z) (q : Z) : bool := existsb (Z.eqb q) ps.

(** What holds after a run of [Set] calls that skips no chunk, [p] being
    the last position and [S] telling the positions set so far: the words
    are some closed blocks followed by the active block, and the chunks
    they stand for reach up to the chunk of [p] and hold exactly the bits
    of [S]. *)
Definition dense_inv (b : Bitmap) (p : Z) (S : Z -> bool) : Prop :=
  n b = p + 1 /\ 0 <= p /\
  exists pre r lits cs,
    w b = pre ++ r :: lits /\ lastrlw b = len pre /\
    len lits = rlw_l r /\ blocks pre cs /\
    len (cs ++ replicate (Z.to_nat (rlw_k r))
                         (if rlw_b r then allones else 0) ++ lits)
      = p / 64 + 1 /\
    forall x, 0 <= x ->
      bit_at (cs ++ replicate (Z.to_nat (rlw_k r))
                              (if rlw_b r then allones else 0) ++ lits) x
      = S x.

(** * Properties *)

(** ** Bit-level facts about the codec *)

Ltac bits := Z.bitblast; repeat (progress Z.bitblast_core).

Ltac zdm := Z.div_mod_to_equations; lia.

Lemma kmask_eq : kmask = Z.shiftl (Z.ones 32) 31.
Proof. reflexivity. Qed.

Lemma lmask_eq : lmask = Z.ones 31.
Proof. reflexivity. Qed.

Lemma bmask_eq : bmask = Z.shiftl 1 63.
Proof. reflexivity. Qed.

Lemma allones_eq : allones = 2 ^ 64 - 1.
Proof. reflexivity. Qed.

Lemma maxUint31_eq : maxUint31 = 2 ^ 31 - 1.
Proof. reflexivity. Qed.

Lemma testbit_high x m i : 0 <= x < 2 ^ m -> m <= i -> Z.testbit x i = false.
Proof.
  intros Hx Hi. destruct (Z.eq_dec x 0) as [->|]; [apply Z.bits_0|].
  assert (0 <= m).
  { destruct (Z.le_gt_cases 0 m); [done|]. rewrite Z.pow_neg_r in Hx; lia. }
  apply Z.bits_above_log2; [lia|].
  apply Z.lt_le_trans with m; [|done]. apply Z.log2_lt_pow2; lia.
Qed.

Lemma shl64_small x s :
  0 <= s < 64 -> 0 <= x * 2 ^ s < 2 ^ 64 -> shl64 x s = x * 2 ^ s.
Proof.
  intros Hs Hx. unfold shl64, uint64.
  destruct (Z.ltb_spec s 64); [|lia].
  rewrite Z.shiftl_mul_pow2 by lia. apply Z.mod_small; lia.
Qed.

Lemma lor_disjoint_add hi lo m :
  0 <= m -> 0 <= lo < 2 ^ m -> Z.lor (hi * 2 ^ m) lo = hi * 2 ^ m + lo.
Proof.
  intros Hm Hlo. apply Z.or_to_plus.
  rewrite <- Z.shiftl_mul_pow2 by lia.
  apply Z.bits_inj'; intros i Hi.
  rewrite Z.land_spec, Z.bits_0.
  destruct (Z.lt_ge_cases i m).
  - rewrite Z.shiftl_spec_low by lia. done.
  - rewrite (testbit_high lo m i) by lia. apply andb_false_r.
Qed.

Lemma clear_l_bits r :
  Z.land r (not64 lmask) = Z.shiftl (Z.shiftr (Z.land r (Z.ones 64)) 31) 31.
Proof. unfold not64. rewrite lmask_eq. bits. Qed.

Lemma clear_k_bits r :
  Z.land r (not64 kmask) =
  Z.lor (Z.land r (Z.ones 31))
        (Z.shiftl (Z.land (Z.shiftr r 63) (Z.ones 1)) 63).
Proof. unfold not64. rewrite kmask_eq. bits. Qed.

(** The three fields of a word, and the packing and the mutators, in
    arithmetic form. *)
Lemma rlw_k_spec r : rlw_k r = (r / 2 ^ 31) mod 2 ^ 32.
Proof.
  unfold rlw_k, uint32, shr64. simpl (31 <? 64). cbv iota.
  rewrite kmask_eq, <- Z.shiftr_div_pow2 by lia.
  rewrite <- !(Z.land_ones _ 32) by lia. bits.
Qed.

Lemma rlw_l_spec r : rlw_l r = r mod 2 ^ 31.
Proof.
  unfold rlw_l, uint32. rewrite lmask_eq, Z.land_ones by lia.
  apply Z.mod_small. pose proof (Z.mod_pos_bound r (2 ^ 31)). lia.
Qed.

Lemma rlw_b_spec r : 0 <= r < 2 ^ 64 -> rlw_b r = (2 ^ 63 <=? r).
Proof.
  intros Hr. unfold rlw_b, shr64. simpl (63 <? 64). cbv iota. rewrite bmask_eq.
  replace (Z.shiftr (Z.land r (Z.shiftl 1 63)) 63) with (r / 2 ^ 63).
  - destruct (Z.leb_spec (2 ^ 63) r), (Z.eqb_spec (r / 2 ^ 63) 0); simpl;
      try done; zdm.
  - rewrite <- (Z.mod_small (r / 2 ^ 63) (2 ^ 1)) by zdm.
    rewrite <- Z.land_ones, <- Z.shiftr_div_pow2 by lia.
    change 1 with (Z.ones 1) at 2. bits.
Qed.

Lemma newRlw_spec (b : bool) k l :
  0 <= k < 2 ^ 32 -> 0 <= l < 2 ^ 31 ->
  newRlw b k l = (if b then 2 ^ 63 else 0) + k * 2 ^ 31 + l.
Proof.
  intros Hk Hl. unfold newRlw.
  rewrite !shl64_small by (destruct b; lia).
  rewrite (lor_disjoint_add _ (k * 2 ^ 31) 63) by lia.
  replace ((if b then 1 else 0) * 2 ^ 63 + k * 2 ^ 31)
    with (((if b then 1 else 0) * 2 ^ 32 + k) * 2 ^ 31) by lia.
  rewrite lor_disjoint_add by lia. destruct b; lia.
Qed.

Lemma rlw_setl_spec r l :
  0 <= r < 2 ^ 64 -> 0 <= l < 2 ^ 31 -> rlw_setl r l = r - r mod 2 ^ 31 + l.
Proof.
  intros Hr Hl. unfold rlw_setl. rewrite clear_l_bits.
  rewrite Z.land_ones, (Z.mod_small r) by lia.
  rewrite Z.shiftl_mul_pow2, Z.shiftr_div_pow2 by lia.
  rewrite lor_disjoint_add by lia.
  pose proof (Z.div_mod r (2 ^ 31)). lia.
Qed.

Lemma rlw_setk_spec r k :
  0 <= r < 2 ^ 64 -> 0 <= k < 2 ^ 32 ->
  rlw_setk r k = r - (r / 2 ^ 31) mod 2 ^ 32 * 2 ^ 31 + k * 2 ^ 31.
Proof.
  intros Hr Hk. unfold rlw_setk. rewrite clear_k_bits.
  rewrite shl64_small by lia.
  rewrite !Z.land_ones, !Z.shiftl_mul_pow2, !Z.shiftr_div_pow2 by lia.
  assert (Hlo : 0 <= r mod 2 ^ 31 < 2 ^ 31) by (apply Z.mod_pos_bound; lia).
  assert (Hhi : 0 <= r / 2 ^ 63 < 2) by zdm.
  rewrite (Z.mod_small (r / 2 ^ 63)) by lia.
  rewrite (Z.lor_comm (r mod 2 ^ 31)), <- Z.lor_assoc.
  rewrite (Z.lor_comm (r mod 2 ^ 31)), (lor_disjoint_add k _ 31) by lia.
  rewrite lor_disjoint_add by lia. zdm.
Qed.

Lemma newRlw_range b k l :
  0 <= k < 2 ^ 32 -> 0 <= l < 2 ^ 31 -> 0 <= newRlw b k l < 2 ^ 64.
Proof. intros. rewrite newRlw_spec by done. destruct b; lia. Qed.

Lemma rlw_setl_range r l :
  0 <= r < 2 ^ 64 -> 0 <= l < 2 ^ 31 -> 0 <= rlw_setl r l < 2 ^ 64.
Proof. intros. rewrite rlw_setl_spec by done. zdm. Qed.

Lemma rlw_setk_range r k :
  0 <= r < 2 ^ 64 -> 0 <= k < 2 ^ 32 -> 0 <= rlw_setk r k < 2 ^ 64.
Proof. intros. rewrite rlw_setk_spec by done. zdm. Qed.

Lemma rlw_k_range r : 0 <= rlw_k r < 2 ^ 32.
Proof. rewrite rlw_k_spec. apply Z.mod_pos_bound. lia. Qed.

Lemma rlw_l_range r : 0 <= rlw_l r < 2 ^ 31.
Proof. rewrite rlw_l_spec. apply Z.mod_pos_bound. lia. Qed.

Lemma rlw_b_newRlw b k l :
  0 <= k < 2 ^ 32 -> 0 <= l < 2 ^ 31 -> rlw_b (newRlw b k l) = b.
Proof.
  intros Hk Hl. rewrite rlw_b_spec by (by apply newRlw_range).
  rewrite newRlw_spec by done. destruct b; lia.
Qed.

Lemma rlw_k_newRlw b k l :
  0 <= k < 2 ^ 32 -> 0 <= l < 2 ^ 31 -> rlw_k (newRlw b k l) = k.
Proof.
  intros Hk Hl. rewrite rlw_k_spec, newRlw_spec by done. destruct b; zdm.
Qed.

Lemma rlw_l_newRlw b k l :
  0 <= k < 2 ^ 32 -> 0 <= l < 2 ^ 31 -> rlw_l (newRlw b k l) = l.
Proof.
  intros Hk Hl. rewrite rlw_l_spec, newRlw_spec by done. destruct b; zdm.
Qed.

Lemma rlw_b_setk r k :
  0 <= r < 2 ^ 64 -> 0 <= k < 2 ^ 32 -> rlw_b (rlw_setk r k) = rlw_b r.
Proof.
  intros Hr Hk. rewrite !rlw_b_spec by (by try apply rlw_setk_range).
  rewrite rlw_setk_spec by done.
  destruct (Z.leb_spec (2 ^ 63) r), (Z.leb_spec (2 ^ 63)
    (r - (r / 2 ^ 31) mod 2 ^ 32 * 2 ^ 31 + k * 2 ^ 31)); try done; zdm.
Qed.

Lemma rlw_l_setk r k :
  0 <= r < 2 ^ 64 -> 0 <= k < 2 ^ 32 -> rlw_l (rlw_setk r k) = rlw_l r.
Proof. intros Hr Hk. rewrite !rlw_l_spec, rlw_setk_spec by done. zdm. Qed.

Lemma rlw_k_setk r k :
  0 <= r < 2 ^ 64 -> 0 <= k < 2 ^ 32 -> rlw_k (rlw_setk r k) = k.
Proof. intros Hr Hk. rewrite !rlw_k_spec, rlw_setk_spec by done. zdm. Qed.

Lemma rlw_b_setl r l :
  0 <= r < 2 ^ 64 -> 0 <= l < 2 ^ 31 -> rlw_b (rlw_setl r l) = rlw_b r.
Proof.
  intros Hr Hl. rewrite !rlw_b_spec by (by try apply rlw_setl_range).
  rewrite rlw_setl_spec by done.
  destruct (Z.leb_spec (2 ^ 63) r),
    (Z.leb_spec (2 ^ 63) (r - r mod 2 ^ 31 + l)); try done; zdm.
Qed.

Lemma rlw_k_setl r l :
  0 <= r < 2 ^ 64 -> 0 <= l < 2 ^ 31 -> rlw_k (rlw_setl r l) = rlw_k r.
Proof. intros Hr Hl. rewrite !rlw_k_spec, rlw_setl_spec by done. zdm. Qed.

Lemma rlw_l_setl r l :
  0 <= r < 2 ^ 64 -> 0 <= l < 2 ^ 31 -> rlw_l (rlw_setl r l) = l.
Proof. intros Hr Hl. rewrite !rlw_l_spec, rlw_setl_spec by done. zdm. Qed.

(** ** Machine arithmetic *)

Lemma int64_small z : is_int64 z -> int64 z = z.
Proof. unfold is_int64, int64. intros. zdm. Qed.

Lemma int64_range z : is_int64 (int64 z).
Proof. unfold is_int64, int64. zdm. Qed.

Lemma uint32_small z : 0 <= z < 2 ^ 32 -> uint32 z = z.
Proof. intros. by apply Z.mod_small. Qed.

Lemma uint64_small z : 0 <= z < 2 ^ 64 -> uint64 z = z.
Proof. intros. by apply Z.mod_small. Qed.

Lemma uint64_range z : 0 <= uint64 z < 2 ^ 64.
Proof. apply Z.mod_pos_bound. lia. Qed.

Lemma shl64_range x s : 0 <= shl64 x s < 2 ^ 64.
Proof. unfold shl64. destruct (s <? 64); [apply uint64_range|lia]. Qed.

Lemma lor_range x y m : 0 <= m -> 0 <= x < 2 ^ m -> 0 <= y < 2 ^ m ->
  0 <= Z.lor x y < 2 ^ m.
Proof.
  intros Hm Hx Hy.
  assert (E : Z.lor x y = Z.lor x y mod 2 ^ m).
  { rewrite <- Z.land_ones by lia. apply Z.bits_inj'; intros i Hi.
    rewrite Z.land_spec, Z.lor_spec, Z.testbit_ones_nonneg by lia.
    destruct (Z.ltb_spec i m); [by rewrite andb_true_r|].
    by rewrite !(testbit_high _ m i). }
  rewrite E. apply Z.mod_pos_bound. lia.
Qed.

Lemma setbit_range word idx : 0 <= word < 2 ^ 64 -> 0 <= setbit word idx < 2 ^ 64.
Proof. intros. apply lor_range; [lia|done|apply shl64_range]. Qed.

(** The size is computed from the bit count alone. *)
Lemma n_primed b : n (primed b) = n b.
Proof. unfold primed. by destruct (lastrlw b <? 0). Qed.

Lemma size_primed b : Bitmap_size (primed b) = Bitmap_size b.
Proof. unfold Bitmap_size. by rewrite n_primed. Qed.

(** ** Slices *)

Lemma index_Done ws i x :
  0 <= i -> ws !! Z.to_nat i = Some x -> index ws i = Done x.
Proof.
  intros Hi Hx. unfold index. destruct (Z.ltb_spec i 0); [lia|]. by rewrite Hx.
Qed.

Lemma index_inv ws i x :
  index ws i = Done x -> 0 <= i < len ws /\ ws !! Z.to_nat i = Some x.
Proof.
  unfold index, len. destruct (Z.ltb_spec i 0); [discriminate|].
  destruct (ws !! Z.to_nat i) eqn:E; [|discriminate]. intros [= ->].
  apply lookup_lt_Some in E as E'. split; [lia|reflexivity].
Qed.

Lemma index_in_range ws i : 0 <= i < len ws -> exists x, index ws i = Done x.
Proof.
  unfold len. intros Hi.
  destruct (lookup_lt_is_Some_2 ws (Z.to_nat i)) as [x Hx]; [lia|].
  exists x. apply index_Done; [lia|exact Hx].
Qed.

Lemma len_app {A} (s t : list A) : len (s ++ t) = len s + len t.
Proof. unfold len. rewrite length_app. lia. Qed.

Lemma len_insert {A} (s : list A) i x : len (<[i:=x]> s) = len s.
Proof. unfold len. by rewrite length_insert. Qed.

Lemma primed_lastrlw b :
  lastrlw b < 0 \/ lastrlw b < len (w b) ->
  0 <= lastrlw (primed b) < len (w (primed b)).
Proof.
  unfold primed. destruct (Z.ltb_spec (lastrlw b) 0); cbn [lastrlw w].
  - intros _. rewrite len_app. unfold len. cbn [length]. lia.
  - lia.
Qed.

(** ** The paths of [Set] *)

Ltac set_enter b pos Hr :=
  unfold Bitmap_Set; fold (primed b);
  destruct (Z.gtb_spec (n b) pos); [lia|];
  cbv zeta; rewrite Hr; cbn [mbind outcome_bind]; rewrite ?size_primed.

Lemma Set_rejects b pos :
  pos < n b -> Bitmap_Set b pos = Done (b, Some ErrInvalidBitSet).
Proof.
  intros Hp. unfold Bitmap_Set. destruct (Z.gtb_spec (n b) pos); [reflexivity|lia].
Qed.

Lemma Set_inside b pos r lit :
  n b <= pos ->
  index (w (primed b)) (lastrlw (primed b)) = Done r ->
  pos < Bitmap_size b ->
  index (w (primed b)) (len (w (primed b)) - 1) = Done lit ->
  setbit lit (uint64 (rem64 pos 64)) <> allones ->
  Bitmap_Set b pos =
  Done ({| n := add64 pos 1;
           w := <[Z.to_nat (len (w (primed b)) - 1) :=
                    setbit lit (uint64 (rem64 pos 64))]> (w (primed b));
           lastrlw := lastrlw (primed b) |}, None).
Proof.
  intros Hn Hr Hp Hlit Hne. set_enter b pos Hr.
  destruct (Z.gtb_spec (Bitmap_size b) pos); [|lia].
  rewrite Hlit. cbn [mbind outcome_bind].
  destruct (Z.eqb_spec (setbit lit (uint64 (rem64 pos 64))) allones); [lia|].
  reflexivity.
Qed.

Lemma Set_merge b pos r lit :
  n b <= pos ->
  index (w (primed b)) (lastrlw (primed b)) = Done r ->
  pos < Bitmap_size b ->
  index (w (primed b)) (len (w (primed b)) - 1) = Done lit ->
  setbit lit (uint64 (rem64 pos 64)) = allones ->
  rlw_b r && (rlw_l r =? 1) && (rlw_k r <? MaxUint32) = true ->
  Bitmap_Set b pos =
  Done ({| n := add64 pos 1;
           w := take (Z.to_nat (len (w (primed b)) - 1))
                  (<[Z.to_nat (lastrlw (primed b)) :=
                       rlw_setl (rlw_setk r (uint32 (rlw_k r + 1))) 0]>
                     (<[Z.to_nat (len (w (primed b)) - 1) := allones]>
                        (w (primed b))));
           lastrlw := lastrlw (primed b) |}, None).
Proof.
  intros Hn Hr Hp Hlit Hall Hc. set_enter b pos Hr.
  destruct (Z.gtb_spec (Bitmap_size b) pos); [|lia].
  rewrite Hlit. cbn [mbind outcome_bind].
  rewrite Hall, Z.eqb_refl, Hc. reflexivity.
Qed.

Lemma Set_convert b pos r lit :
  n b <= pos ->
  index (w (primed b)) (lastrlw (primed b)) = Done r ->
  pos < Bitmap_size b ->
  index (w (primed b)) (len (w (primed b)) - 1) = Done lit ->
  setbit lit (uint64 (rem64 pos 64)) = allones ->
  rlw_b r && (rlw_l r =? 1) && (rlw_k r <? MaxUint32) = false ->
  Bitmap_Set b pos =
  Done ({| n := add64 pos 1;
           w := <[Z.to_nat (lastrlw (primed b)) :=
                    rlw_setl r (uint32 (rlw_l r - 1))]>
                  (<[Z.to_nat (len (w (primed b)) - 1) := newRlw true 1 0]>
                     (<[Z.to_nat (len (w (primed b)) - 1) := allones]>
                        (w (primed b))));
           lastrlw := len (w (primed b)) - 1 |}, None).
Proof.
  intros Hn Hr Hp Hlit Hall Hc. set_enter b pos Hr.
  destruct (Z.gtb_spec (Bitmap_size b) pos); [|lia].
  rewrite Hlit. cbn [mbind outcome_bind].
  rewrite Hall, Z.eqb_refl, Hc. reflexivity.
Qed.

Lemma Set_literal b pos r :
  n b <= pos ->
  index (w (primed b)) (lastrlw (primed b)) = Done r ->
  Bitmap_size b <= pos ->
  div64 (sub64 pos (Bitmap_size b)) 64 = 0 ->
  uint32 (rlw_l r + 1) <= maxUint31 ->
  Bitmap_Set b pos =
  Done ({| n := add64 pos 1;
           w := <[Z.to_nat (lastrlw (primed b)) :=
                    rlw_setl r (uint32 (rlw_l r + 1))]> (w (primed b))
                ++ [setbit 0 (uint64 (rem64 pos 64))];
           lastrlw := lastrlw (primed b) |}, None).
Proof.
  intros Hn Hr Hp Hk Hl. set_enter b pos Hr.
  destruct (Z.gtb_spec (Bitmap_size b) pos); [lia|].
  rewrite Hk, Z.eqb_refl.
  destruct (Z.leb_spec (uint32 (rlw_l r + 1)) maxUint31); [|lia].
  reflexivity.
Qed.

Lemma Set_gap b pos r :
  n b <= pos ->
  index (w (primed b)) (lastrlw (primed b)) = Done r ->
  Bitmap_size b <= pos ->
  0 < div64 (sub64 pos (Bitmap_size b)) 64 ->
  add64 (rlw_k r) (div64 (sub64 pos (Bitmap_size b)) 64) <= MaxUint32 ->
  Bitmap_Set b pos =
  Done ({| n := add64 pos 1;
           w := <[Z.to_nat (lastrlw (primed b)) :=
                    rlw_setl
                      (rlw_setk r
                         (uint32 (rlw_k r +
                                  uint32 (div64 (sub64 pos (Bitmap_size b)) 64))))
                      (uint32
                         (rlw_l
                            (rlw_setk r
                               (uint32 (rlw_k r +
                                  uint32 (div64 (sub64 pos (Bitmap_size b)) 64))))
                          + 1))]> (w (primed b))
                ++ [setbit 0 (uint64 (rem64 pos 64))];
           lastrlw := lastrlw (primed b) |}, None).
Proof.
  intros Hn Hr Hp Hk Hs. set_enter b pos Hr.
  destruct (Z.gtb_spec (Bitmap_size b) pos); [lia|].
  destruct (Z.eqb_spec (div64 (sub64 pos (Bitmap_size b)) 64) 0); [lia|].
  cbn [andb].
  destruct (Z.gtb_spec (div64 (sub64 pos (Bitmap_size b)) 64) 0); [|lia].
  destruct (Z.leb_spec (add64 (rlw_k r) (div64 (sub64 pos (Bitmap_size b)) 64))
              MaxUint32); [|lia].
  reflexivity.
Qed.

Lemma Set_new_block b pos r :
  n b <= pos ->
  index (w (primed b)) (lastrlw (primed b)) = Done r ->
  Bitmap_size b <= pos ->
  (div64 (sub64 pos (Bitmap_size b)) 64 = 0 /\
   maxUint31 < uint32 (rlw_l r + 1)) \/
  (div64 (sub64 pos (Bitmap_size b)) 64 <> 0 /\
   (div64 (sub64 pos (Bitmap_size b)) 64 < 0 \/
    MaxUint32 < add64 (rlw_k r) (div64 (sub64 pos (Bitmap_size b)) 64))) ->
  Bitmap_Set b pos =
  Done ({| n := add64 pos 1;
           w := <[Z.to_nat (lastrlw (primed b)) := r]>
                  (w (primed b) ++
                   [newRlw false
                      (uint32 (sub64 (sub64
                         (div64 (sub64 pos (Bitmap_size b)) 64) MaxUint32) 1))
                      1])
                ++ [setbit 0 (uint64 (rem64 pos 64))];
           lastrlw := len (w (primed b)) |}, None).
Proof.
  intros Hn Hr Hp Hk. set_enter b pos Hr.
  destruct (Z.gtb_spec (Bitmap_size b) pos); [lia|].
  rewrite len_insert, len_app.
  replace (len (w (primed b)) + len [newRlw false
    (uint32 (sub64 (sub64 (div64 (sub64 pos (Bitmap_size b)) 64) MaxUint32) 1))
    1] - 1) with (len (w (primed b))) by (unfold len; cbn [length]; lia).
  destruct (Z.eqb_spec (div64 (sub64 pos (Bitmap_size b)) 64) 0) as [E|E];
    cbn [andb].
  - destruct (Z.leb_spec (uint32 (rlw_l r + 1)) maxUint31); [lia|].
    rewrite E. reflexivity.
  - destruct (Z.gtb_spec (div64 (sub64 pos (Bitmap_size b)) 64) 0); cbn [andb];
      [|reflexivity].
    destruct (Z.leb_spec (add64 (rlw_k r) (div64 (sub64 pos (Bitmap_size b)) 64))
                MaxUint32); [lia|reflexivity].
Qed.

(** ** What a call of [Set] returns *)

Lemma Set_success_n b pos b' :
  Bitmap_Set b pos = Done (b', None) -> n b <= pos /\ n b' = add64 pos 1.
Proof.
  unfold Bitmap_Set. destruct (Z.gtb_spec (n b) pos); [discriminate|].
  fold (primed b). cbv zeta.
  destruct (index (w (primed b)) (lastrlw (primed b))) as [r|];
    cbn [mbind outcome_bind]; [|discriminate].
  destruct (Bitmap_size (primed b) >? pos).
  - destruct (index (w (primed b)) (len (w (primed b)) - 1)) as [lit|];
      cbn [mbind outcome_bind]; [|discriminate].
    repeat match goal with |- context [if ?c then _ else _] => destruct c end;
      intros [= <-]; cbn [n]; (split; [lia|reflexivity]).
  - repeat match goal with |- context [if ?c then _ else _] => destruct c end;
      intros [= <-]; cbn [n]; (split; [lia|reflexivity]).
Qed.

Lemma Set_error_inv b pos b' e :
  Bitmap_Set b pos = Done (b', Some e) ->
  pos < n b /\ b' = b /\ e = ErrInvalidBitSet.
Proof.
  unfold Bitmap_Set. destruct (Z.gtb_spec (n b) pos).
  { intros [= <- <-]. auto. }
  fold (primed b). cbv zeta.
  destruct (index (w (primed b)) (lastrlw (primed b))) as [r|];
    cbn [mbind outcome_bind]; [|discriminate].
  destruct (Bitmap_size (primed b) >? pos).
  - destruct (index (w (primed b)) (len (w (primed b)) - 1)) as [lit|];
      cbn [mbind outcome_bind]; [|discriminate].
    repeat match goal with |- context [if ?c then _ else _] => destruct c end;
      discriminate.
  - repeat match goal with |- context [if ?c then _ else _] => destruct c end;
      discriminate.
Qed.

Lemma Set_succeeds b pos :
  lastrlw b < 0 \/ lastrlw b < len (w b) -> n b <= pos ->
  exists b', Bitmap_Set b pos = Done (b', None).
Proof.
  intros Hv Hn. apply primed_lastrlw in Hv.
  destruct (index_in_range (w (primed b)) (lastrlw (primed b))) as [r Hr]; [lia|].
  destruct (index_in_range (w (primed b)) (len (w (primed b)) - 1))
    as [lit Hlit]; [lia|].
  unfold Bitmap_Set. destruct (Z.gtb_spec (n b) pos); [lia|].
  fold (primed b). cbv zeta. rewrite Hr. cbn [mbind outcome_bind].
  destruct (Bitmap_size (primed b) >? pos).
  - rewrite Hlit. cbn [mbind outcome_bind].
    repeat match goal with |- context [if ?c then _ else _] => destruct c end;
      eexists; reflexivity.
  - repeat match goal with |- context [if ?c then _ else _] => destruct c end;
      eexists; reflexivity.
Qed.

(** C3 (amended).  For a bitmap whose active index is negative or inside
    the word array, and a position below the largest int64: [Set] returns
    [ErrInvalidBitSet] exactly when the position is below the bit count, and
    then leaves the bitmap as it was; otherwise it succeeds, the bit count
    becomes [pos + 1], and every later [Set] at a lower position is
    rejected. *)
Theorem Set_out_of_order (b : Bitmap) (pos : Z) :
  lastrlw b < 0 \/ lastrlw b < len (w b) ->
  is_int64 pos -> pos < MaxInt64 ->
  (forall b' e, Bitmap_Set b pos = Done (b', Some e) <->
                pos < n b /\ b' = b /\ e = ErrInvalidBitSet) /\
  (n b <= pos ->
   exists b', Bitmap_Set b pos = Done (b', None) /\ n b' = pos + 1 /\
     forall p1, p1 < pos ->
       Bitmap_Set b' p1 = Done (b', Some ErrInvalidBitSet)).
Proof.
  intros Hv Hpos Hmax. split.
  - intros b' e. split; [apply Set_error_inv|].
    intros (Hlt & -> & ->). by apply Set_rejects.
  - intros Hn. destruct (Set_succeeds b pos Hv Hn) as [b' Hb'].
    exists b'. apply Set_success_n in Hb' as Hn'. destruct Hn' as [_ Hn'].
    assert (n b' = pos + 1) as E.
    { rewrite Hn'. apply int64_small. unfold is_int64, MaxInt64 in *. lia. }
    split; [exact Hb'|]. split; [exact E|].
    intros p1 Hp1. apply Set_rejects. lia.
Qed.

Lemma Set_out_of_order_witness :
  exists b', Bitmap_Set New 5 = Done (b', None) /\ n b' = 5 + 1 /\
    forall p1, p1 < 5 -> Bitmap_Set b' p1 = Done (b', Some ErrInvalidBitSet).
Proof.
  apply (Set_out_of_order New 5).
  - left. reflexivity.
  - unfold is_int64. lia.
  - unfold MaxInt64. lia.
  - unfold New. cbn [n]. lia.
Defined.

(** C3, as stated, fails twice: a bitmap read from twelve zero bytes makes
    [Set] panic, neither an error nor a success; and after [Set] at the
    largest int64 the bit count has wrapped, so a lower position is then
    accepted. *)
Lemma Set_out_of_order_counterexample :
  FromBytes (replicate 12 0) BigEndian =
    inr {| n := 0; w := []; lastrlw := 0 |} /\
  Bitmap_Set {| n := 0; w := []; lastrlw := 0 |} 0 = Panic /\
  exists b1 b2,
    Bitmap_Set New MaxInt64 = Done (b1, None) /\
    n b1 = MinInt64 /\
    Bitmap_Set b1 0 = Done (b2, None).
Proof.
  split; [vm_compute; reflexivity|]. split; [vm_compute; reflexivity|].
  eexists _, _. split; [vm_compute; reflexivity|].
  split; vm_compute; reflexivity.
Qed.

(** ** The codec *)

(** C9.  Unpacking the word packed from a bit, a run count of at most
    2^32-1 and a literal count of at most 2^31-1 gives the three back; and
    on every word, setting the run count keeps the repeated bit and the
    literal count, and setting the literal count keeps the repeated bit and
    the run count. *)
Theorem rlw_pack_unpack (b : bool) (k l : Z) :
  0 <= k <= 2 ^ 32 - 1 -> 0 <= l <= 2 ^ 31 - 1 ->
  (rlw_b (newRlw b k l), rlw_k (newRlw b k l), rlw_l (newRlw b k l))
    = (b, k, l) /\
  forall r, is_uint64 r ->
    rlw_b (rlw_setk r k) = rlw_b r /\ rlw_l (rlw_setk r k) = rlw_l r /\
    rlw_b (rlw_setl r l) = rlw_b r /\ rlw_k (rlw_setl r l) = rlw_k r.
Proof.
  intros Hk Hl. split.
  - rewrite rlw_b_newRlw, rlw_k_newRlw, rlw_l_newRlw by lia. reflexivity.
  - intros r Hr. unfold is_uint64 in Hr.
    rewrite rlw_b_setk, rlw_l_setk, rlw_b_setl, rlw_k_setl by lia. auto.
Qed.

Lemma rlw_pack_unpack_witness :
  (rlw_b (newRlw true 5 2), rlw_k (newRlw true 5 2), rlw_l (newRlw true 5 2))
    = (true, 5, 2) /\
  forall r, is_uint64 r ->
    rlw_b (rlw_setk r 5) = rlw_b r /\ rlw_l (rlw_setk r 5) = rlw_l r /\
    rlw_b (rlw_setl r 2) = rlw_b r /\ rlw_k (rlw_setl r 2) = rlw_k r.
Proof. apply (rlw_pack_unpack true 5 2); lia. Defined.

(** ** Reading bits *)

(** C8.  At a position that is not below the bit count, [Get] returns
    false, and does so without a panic. *)
Theorem Get_unwritten (b : Bitmap) (pos : Z) :
  n b <= pos -> Bitmap_Get b pos = Some (Done false).
Proof.
  intros Hp. unfold Bitmap_Get. destruct (Z.geb_spec pos (n b)); [reflexivity|lia].
Qed.

Lemma Get_unwritten_witness : Bitmap_Get New MaxInt64 = Some (Done false).
Proof. apply (Get_unwritten New MaxInt64). unfold New, MaxInt64. cbn [n]. lia. Defined.

(** C1 fails on the code.  After [Set 0] and [Set 200] the gap of two empty
    chunks has been added to the run count of an RLW that already had a
    literal, which places the run before that literal: bit 0, which was set,
    reads as false, and bit 128, which never was, reads as true. *)
Theorem Get_after_gap :
  exists b, sets New [0; 200] = Some b /\ n b = 201 /\
    Bitmap_Get b 0 = Some (Done false) /\
    Bitmap_Get b 128 = Some (Done true).
Proof.
  eexists. split; [vm_compute; reflexivity|].
  repeat split; vm_compute; reflexivity.
Qed.

(** ** The serializer *)

Lemma byte_spec v : byte v = v mod 2 ^ 8.
Proof. unfold byte. change 255 with (Z.ones 8). apply Z.land_ones. lia. Qed.

Lemma lor_shiftl_add lo hi m :
  0 <= m -> 0 <= lo < 2 ^ m -> Z.lor lo (Z.shiftl hi m) = lo + hi * 2 ^ m.
Proof.
  intros. rewrite Z.shiftl_mul_pow2, Z.lor_comm, lor_disjoint_add by lia. lia.
Qed.

Lemma le_uint32_bytes v : le_uint32 (le_bytes32 v) = v mod 2 ^ 32.
Proof.
  unfold le_uint32, le_bytes32. rewrite !byte_spec, !Z.shiftr_div_pow2 by lia.
  rewrite (lor_shiftl_add _ _ 8) by zdm.
  rewrite (lor_shiftl_add _ _ 16) by zdm.
  rewrite (lor_shiftl_add _ _ 24) by zdm. zdm.
Qed.

Lemma le_uint64_bytes v : le_uint64 (le_bytes64 v) = v mod 2 ^ 64.
Proof.
  unfold le_uint64, le_bytes64. rewrite !byte_spec, !Z.shiftr_div_pow2 by lia.
  rewrite (lor_shiftl_add _ _ 8) by zdm.
  rewrite (lor_shiftl_add _ _ 16) by zdm.
  rewrite (lor_shiftl_add _ _ 24) by zdm.
  rewrite (lor_shiftl_add _ _ 32) by zdm.
  rewrite (lor_shiftl_add _ _ 40) by zdm.
  rewrite (lor_shiftl_add _ _ 48) by zdm.
  rewrite (lor_shiftl_add _ _ 56) by zdm. zdm.
Qed.

Lemma Uint32_PutUint32 bo v : Uint32 bo (PutUint32 bo v) = uint32 v.
Proof. destruct bo; apply le_uint32_bytes. Qed.

Lemma Uint64_PutUint64 bo v : Uint64 bo (PutUint64 bo v) = uint64 v.
Proof. destruct bo; apply le_uint64_bytes. Qed.

Lemma length_PutUint32 bo v : length (PutUint32 bo v) = 4%nat.
Proof. by destruct bo. Qed.

Lemma length_PutUint64 bo v : length (PutUint64 bo v) = 8%nat.
Proof. by destruct bo. Qed.

Lemma writeWords_eq out bo ws :
  writeWords out bo ws = (out ++ concat (map (PutUint64 bo) ws), None).
Proof.
  revert out. induction ws as [|word ws IH]; intros out; cbn [writeWords map concat].
  - by rewrite app_nil_r.
  - unfold writeUint64. rewrite IH. by rewrite <- app_assoc.
Qed.

Lemma Bitmap_Write_eq b out bo :
  Bitmap_Write b out bo =
  (out ++ PutUint32 bo (Bitmap_Bits b) ++ PutUint32 bo (uint32 (len (w b)))
       ++ concat (map (PutUint64 bo) (w b))
       ++ PutUint32 bo (uint32 (lastrlw b)),
   add64 (4 * 3) (mul64 (len (w b)) 8), None).
Proof.
  unfold Bitmap_Write, writeUint32. rewrite writeWords_eq.
  by rewrite <- !app_assoc.
Qed.

Lemma ReadAtLeast_app pre rest :
  ReadAtLeast (pre ++ rest) (length pre) = (rest, inr pre).
Proof.
  unfold ReadAtLeast. rewrite length_app.
  destruct (Nat.ltb_spec (length pre + length rest) (length pre)); [lia|].
  by rewrite drop_app_length, take_app_length.
Qed.

Lemma readUint32_app bo v rest :
  readUint32 (PutUint32 bo v ++ rest) bo = (rest, inr (uint32 v)).
Proof.
  unfold readUint32. rewrite <- (length_PutUint32 bo v), ReadAtLeast_app.
  by rewrite Uint32_PutUint32.
Qed.

Lemma readUint64_app bo v rest :
  readUint64 (PutUint64 bo v ++ rest) bo = (rest, inr (uint64 v)).
Proof.
  unfold readUint64. rewrite <- (length_PutUint64 bo v), ReadAtLeast_app.
  by rewrite Uint64_PutUint64.
Qed.

Lemma readWords_app bo ws rest i :
  Forall is_uint64 ws ->
  readWords (concat (map (PutUint64 bo) ws) ++ rest) bo (length ws) i
  = (rest, inr ws).
Proof.
  intros Hws. revert i.
  induction Hws as [|word ws Hword _ IH]; intros i; [reflexivity|].
  cbn [map concat length readWords]. rewrite <- app_assoc, readUint64_app, IH.
  by rewrite uint64_small.
Qed.

(** Reading back what [Write] wrote gives the bitmap again whenever its
    three fields fit the wire format. *)
Lemma FromBytes_Write b bo :
  Forall is_uint64 (w b) -> 0 <= n b < 2 ^ 32 -> len (w b) < 2 ^ 32 ->
  0 <= lastrlw b < 2 ^ 32 ->
  FromBytes (Bitmap_Write b [] bo).1.1 bo = inr b.
Proof.
  intros Hws Hn Hlen Hlast. rewrite Bitmap_Write_eq. cbn [fst app].
  unfold FromBytes, FromReader, Bitmap_Bits.
  rewrite readUint32_app, readUint32_app.
  rewrite !uint32_small by (unfold len in *; rewrite ?uint32_small; lia).
  unfold len at 1. rewrite Nat2Z.id, readWords_app by done.
  rewrite <- (app_nil_r (PutUint32 _ _)), readUint32_app.
  rewrite uint32_small, !int64_small by (unfold is_int64; lia).
  by destruct b.
Qed.

(** C10.  [Bits] returns the stored bit count reduced modulo 2^32, [Write]
    puts that truncated value first on the wire, and so a bit count above
    2^32-1 is reported and serialized as a smaller number. *)
Theorem Bits_truncated (b : Bitmap) (out : list Z) (bo : ByteOrder) :
  Bitmap_Bits b = n b mod 2 ^ 32 /\
  (exists rest,
     (Bitmap_Write b out bo).1.1 = out ++ PutUint32 bo (n b mod 2 ^ 32) ++ rest) /\
  Uint32 bo (PutUint32 bo (n b mod 2 ^ 32)) = n b mod 2 ^ 32 /\
  (2 ^ 32 - 1 < n b -> Bitmap_Bits b < n b).
Proof.
  split; [reflexivity|]. split.
  { rewrite Bitmap_Write_eq. cbn [fst]. eexists. reflexivity. }
  split.
  { rewrite Uint32_PutUint32. unfold uint32. rewrite Z.mod_mod; lia. }
  intros Hn. unfold Bitmap_Bits, uint32. zdm.
Qed.

Lemma Bits_truncated_witness :
  Bitmap_Bits {| n := 2 ^ 32 + 1; w := []; lastrlw := -1 |} <
  n {| n := 2 ^ 32 + 1; w := []; lastrlw := -1 |}.
Proof.
  apply (Bits_truncated {| n := 2 ^ 32 + 1; w := []; lastrlw := -1 |}
           [] BigEndian).
  cbn [n]. lia.
Defined.

(** ** The two compressing paths of [Set] *)

Lemma primed_id b : 0 <= lastrlw b -> primed b = b.
Proof. intros H. unfold primed. destruct (Z.ltb_spec (lastrlw b) 0); [lia|done]. Qed.

Lemma div64_bound x : is_int64 x -> - 2 ^ 57 <= div64 x 64 <= 2 ^ 57.
Proof.
  unfold is_int64, div64. intros Hx.
  assert (- 2 ^ 57 <= Z.quot x 64 <= 2 ^ 57) by (Z.quot_rem_to_equations; lia).
  rewrite int64_small by (unfold is_int64; lia). lia.
Qed.

Lemma gap_bound pos bn :
  - 2 ^ 57 <= div64 (sub64 pos bn) 64 <= 2 ^ 57.
Proof. apply div64_bound, int64_range. Qed.

(** C7.  When a [Set] inside the current capacity fills the last literal
    word (a word after the active RLW, which counts at least one literal):
    if the active RLW repeats 1, has exactly one literal and a run count
    below the maximum, the literal is dropped, the run count grows by one
    and the literal count becomes 0; otherwise the literal count of the old
    RLW drops by one, the filled literal is overwritten by a new RLW
    (1, run count 1, no literal), and that word becomes the active RLW. *)
Theorem Set_fills_literal (b : Bitmap) (pos r lit : Z) :
  0 <= lastrlw b < len (w b) - 1 ->
  index (w b) (lastrlw b) = Done r ->
  index (w b) (len (w b) - 1) = Done lit ->
  is_uint64 r -> 1 <= rlw_l r ->
  n b <= pos < Bitmap_size b ->
  setbit lit (uint64 (rem64 pos 64)) = allones ->
  exists r',
    if rlw_b r && (rlw_l r =? 1) && (rlw_k r <? MaxUint32)
    then
      Bitmap_Set b pos =
        Done ({| n := add64 pos 1;
                 w := <[Z.to_nat (lastrlw b) := r']>
                        (take (Z.to_nat (len (w b) - 1)) (w b));
                 lastrlw := lastrlw b |}, None) /\
      rlw_b r' = true /\ rlw_k r' = rlw_k r + 1 /\ rlw_l r' = 0
    else
      Bitmap_Set b pos =
        Done ({| n := add64 pos 1;
                 w := <[Z.to_nat (lastrlw b) := r']>
                        (<[Z.to_nat (len (w b) - 1) := newRlw true 1 0]> (w b));
                 lastrlw := len (w b) - 1 |}, None) /\
      rlw_b r' = rlw_b r /\ rlw_k r' = rlw_k r /\ rlw_l r' = rlw_l r - 1 /\
      (rlw_b (newRlw true 1 0), rlw_k (newRlw true 1 0),
       rlw_l (newRlw true 1 0)) = (true, 1, 0).
Proof.
  intros Hi Hr Hlit Hur Hl Hp Hall. unfold is_uint64 in Hur.
  pose proof (rlw_k_range r) as Hk. pose proof (rlw_l_range r) as Hl'.
  assert (Hpr : primed b = b) by (apply primed_id; lia).
  destruct (rlw_b r && (rlw_l r =? 1) && (rlw_k r <? MaxUint32)) eqn:Hc.
  - apply andb_prop in Hc as [Hc Hkm]. apply andb_prop in Hc as [Hb Hl1].
    apply Z.ltb_lt in Hkm. unfold MaxUint32 in Hkm.
    exists (rlw_setl (rlw_setk r (uint32 (rlw_k r + 1))) 0).
    rewrite uint32_small by lia.
    assert (0 <= rlw_setk r (rlw_k r + 1) < 2 ^ 64) by (apply rlw_setk_range; lia).
    split; [|split; [|split]].
    + rewrite (Set_merge b pos r lit); rewrite ?Hpr;
        try done; try lia;
        [|by rewrite Hb, Hl1, (proj2 (Z.ltb_lt _ _)) by (unfold MaxUint32; lia)].
      rewrite uint32_small by lia.
      rewrite take_insert_lt by lia. rewrite take_insert_ge by lia. reflexivity.
    + rewrite rlw_b_setl, rlw_b_setk by lia. exact Hb.
    + rewrite rlw_k_setl, rlw_k_setk by lia. reflexivity.
    + rewrite rlw_l_setl by lia. reflexivity.
  - exists (rlw_setl r (uint32 (rlw_l r - 1))).
    rewrite uint32_small by lia.
    split; [|split; [|split; [|split]]].
    + rewrite (Set_convert b pos r lit); rewrite ?Hpr; try done; try lia.
      rewrite uint32_small by lia. rewrite list_insert_insert_eq. reflexivity.
    + rewrite rlw_b_setl by lia. reflexivity.
    + rewrite rlw_k_setl by lia. reflexivity.
    + rewrite rlw_l_setl by lia. reflexivity.
    + rewrite rlw_b_newRlw, rlw_k_newRlw, rlw_l_newRlw by lia. reflexivity.
Qed.

Lemma Set_fills_literal_witness :
  exists r',
    if rlw_b (newRlw true 1 1) && (rlw_l (newRlw true 1 1) =? 1)
       && (rlw_k (newRlw true 1 1) <? MaxUint32)
    then
      Bitmap_Set {| n := 127; w := [newRlw true 1 1; 2 ^ 64 - 2]; lastrlw := 0 |}
                 127 =
        Done ({| n := add64 127 1;
                 w := <[Z.to_nat 0 := r']>
                        (take (Z.to_nat (2 - 1)) [newRlw true 1 1; 2 ^ 64 - 2]);
                 lastrlw := 0 |}, None) /\
      rlw_b r' = true /\ rlw_k r' = rlw_k (newRlw true 1 1) + 1 /\ rlw_l r' = 0
    else
      Bitmap_Set {| n := 127; w := [newRlw true 1 1; 2 ^ 64 - 2]; lastrlw := 0 |}
                 127 =
        Done ({| n := add64 127 1;
                 w := <[Z.to_nat 0 := r']>
                        (<[Z.to_nat (2 - 1) := newRlw true 1 0]>
                           [newRlw true 1 1; 2 ^ 64 - 2]);
                 lastrlw := 2 - 1 |}, None) /\
      rlw_b r' = rlw_b (newRlw true 1 1) /\
      rlw_k r' = rlw_k (newRlw true 1 1) /\
      rlw_l r' = rlw_l (newRlw true 1 1) - 1 /\
      (rlw_b (newRlw true 1 0), rlw_k (newRlw true 1 0),
       rlw_l (newRlw true 1 0)) = (true, 1, 0).
Proof.
  apply (Set_fills_literal
           {| n := 127; w := [newRlw true 1 1; 2 ^ 64 - 2]; lastrlw := 0 |}
           127 (newRlw true 1 1) (2 ^ 64 - 2)).
  - vm_compute. split; [discriminate|reflexivity].
  - reflexivity.
  - reflexivity.
  - vm_compute. split; [discriminate|reflexivity].
  - vm_compute. discriminate.
  - vm_compute. split; [discriminate|reflexivity].
  - vm_compute. reflexivity.
Defined.

(** C6 (amended).  When [Set] must insert a gap of [k] empty chunks, [k]
    at most 2^32-1, and adding [k] to the run count of the active RLW would
    exceed 2^32-1, the active RLW and all the words stay as they are, and a
    new RLW (repeated bit 0, run count [k], one literal) is appended and
    becomes active, followed by the one-bit literal: a run at the maximum
    plus one more chunk is followed by an RLW of run count 1. *)
Theorem Set_run_overflow (b : Bitmap) (pos r : Z) :
  0 <= lastrlw b -> index (w b) (lastrlw b) = Done r ->
  n b <= pos -> Bitmap_size b <= pos ->
  0 < div64 (sub64 pos (Bitmap_size b)) 64 <= MaxUint32 ->
  MaxUint32 < rlw_k r + div64 (sub64 pos (Bitmap_size b)) 64 ->
  Bitmap_Set b pos =
    Done ({| n := add64 pos 1;
             w := w b ++
                  [newRlw false (div64 (sub64 pos (Bitmap_size b)) 64) 1;
                   setbit 0 (uint64 (rem64 pos 64))];
             lastrlw := len (w b) |}, None) /\
  (rlw_b (newRlw false (div64 (sub64 pos (Bitmap_size b)) 64) 1),
   rlw_k (newRlw false (div64 (sub64 pos (Bitmap_size b)) 64) 1),
   rlw_l (newRlw false (div64 (sub64 pos (Bitmap_size b)) 64) 1))
  = (false, div64 (sub64 pos (Bitmap_size b)) 64, 1).
Proof.
  intros Hi Hr Hn Hp Hk Hov.
  pose proof (rlw_k_range r) as Hrk.
  set (k := div64 (sub64 pos (Bitmap_size b)) 64) in *.
  unfold MaxUint32 in Hk, Hov.
  assert (Hpr : primed b = b) by (apply primed_id; lia).
  split.
  - rewrite (Set_new_block b pos r); rewrite ?Hpr; try done.
    + fold k. unfold sub64, MaxUint32.
      rewrite !int64_small by (unfold is_int64; rewrite ?int64_small;
                               unfold is_int64; lia).
      replace (uint32 (k - (2 ^ 32 - 1) - 1)) with k
        by (unfold uint32; zdm).
      apply index_inv in Hr as [Hr1 Hr2].
      rewrite list_insert_id by (apply lookup_app_l_Some; exact Hr2).
      rewrite <- app_assoc. reflexivity.
    + right. fold k. split; [lia|]. right. unfold add64, MaxUint32.
      rewrite int64_small by (unfold is_int64; lia). lia.
  - rewrite rlw_b_newRlw, rlw_k_newRlw, rlw_l_newRlw by lia. reflexivity.
Qed.

Lemma Set_run_overflow_witness :
  rlw_k (newRlw false
           (div64 (sub64 (MaxUint32 * 64 + 127)
                     (Bitmap_size {| n := MaxUint32 * 64;
                                     w := [newRlw false MaxUint32 0];
                                     lastrlw := 0 |})) 64) 1)
  = div64 (sub64 (MaxUint32 * 64 + 127)
             (Bitmap_size {| n := MaxUint32 * 64;
                             w := [newRlw false MaxUint32 0];
                             lastrlw := 0 |})) 64.
Proof.
  refine (f_equal (fun t => snd (fst t))
    (proj2 (Set_run_overflow
      {| n := MaxUint32 * 64; w := [newRlw false MaxUint32 0]; lastrlw := 0 |}
      (MaxUint32 * 64 + 127) (newRlw false MaxUint32 0) _ _ _ _ _ _))).
  - vm_compute. discriminate.
  - reflexivity.
  - vm_compute. discriminate.
  - vm_compute. discriminate.
  - vm_compute. split; [reflexivity|discriminate].
  - vm_compute. reflexivity.
Defined.

(** C6, as stated, fails: after [Set] at [64 * (2^32-1)] the active RLW has
    the maximal run count; a [Set] one empty chunk further on, [k = 1],
    appends an RLW whose run count is 1 and not [k - (2^32-1)] (nor that
    number reduced modulo 2^32, which is 2). *)
Lemma Set_run_overflow_counterexample :
  exists b r b' fresh,
    sets New [64 * (2 ^ 32 - 1)] = Some b /\
    index (w b) (lastrlw b) = Done r /\ rlw_k r = 2 ^ 32 - 1 /\
    div64 (sub64 (64 * (2 ^ 32 - 1) + 128) (Bitmap_size b)) 64 = 1 /\
    Bitmap_Set b (64 * (2 ^ 32 - 1) + 128) = Done (b', None) /\
    index (w b') (lastrlw b') = Done fresh /\
    rlw_k fresh = 1 /\
    rlw_k fresh <> 1 - (2 ^ 32 - 1) /\
    rlw_k fresh <> uint32 (1 - (2 ^ 32 - 1)).
Proof.
  eexists _, _, _, _.
  split; [vm_compute; reflexivity|].
  split; [vm_compute; reflexivity|].
  split; [vm_compute; reflexivity|].
  split; [vm_compute; reflexivity|].
  split; [vm_compute; reflexivity|].
  split; [vm_compute; reflexivity|].
  split; [vm_compute; reflexivity|].
  split; vm_compute; discriminate.
Qed.

(** Gaps of 2^32 chunks or more are outside the amended C6: the conversion
    to uint32 keeps only the low 32 bits of the gap, so chunks are lost.
    [Set] at 2^40 on the empty bitmap needs a gap of 2^34 chunks and stores
    a run count of 0; the bit that was set then reads as false. *)
Lemma Set_wide_gap_truncated :
  exists b, Bitmap_Set New (2 ^ 40) = Done (b, None) /\
    div64 (sub64 (2 ^ 40) (Bitmap_size (primed New))) 64 = 2 ^ 34 /\
    w b = [newRlw false 0 0; newRlw false 0 1; 2 ^ 63] /\
    Bitmap_Get b (2 ^ 40) = Some (Done false).
Proof.
  eexists. split; [vm_compute; reflexivity|].
  split; [vm_compute; reflexivity|].
  split; vm_compute; reflexivity.
Qed.

(** ** What [Set] keeps *)

Lemma land_range x y m : 0 <= m -> 0 <= x < 2 ^ m -> 0 <= Z.land x y < 2 ^ m.
Proof.
  intros Hm Hx.
  assert (E : Z.land x y = Z.land x y mod 2 ^ m).
  { rewrite <- Z.land_ones by lia. apply Z.bits_inj'; intros i Hi.
    rewrite !Z.land_spec, Z.testbit_ones_nonneg by lia.
    destruct (Z.ltb_spec i m); [by rewrite andb_true_r|].
    by rewrite (testbit_high x m i). }
  rewrite E. apply Z.mod_pos_bound. lia.
Qed.

Lemma rlw_setl_uint64 r l :
  is_uint64 r -> is_uint64 l -> is_uint64 (rlw_setl r l).
Proof.
  unfold is_uint64. intros Hr Hl. apply lor_range; [lia| |done].
  apply land_range; [lia|done].
Qed.

Lemma rlw_setk_uint64 r k : is_uint64 r -> is_uint64 (rlw_setk r k).
Proof.
  unfold is_uint64. intros Hr. apply lor_range; [lia| |apply shl64_range].
  apply land_range; [lia|done].
Qed.

Lemma uint32_uint64 z : is_uint64 (uint32 z).
Proof. unfold is_uint64, uint32. zdm. Qed.

Lemma newRlw_uint64 b k : is_uint64 (newRlw b (uint32 k) 1).
Proof. apply newRlw_range; [apply Z.mod_pos_bound|]; lia. Qed.

Lemma setbit_uint64 word idx : is_uint64 word -> is_uint64 (setbit word idx).
Proof. apply setbit_range. Qed.

Lemma testbit_shl64_one s : 0 <= s -> Z.testbit (shl64 1 s) 0 = (s =? 0).
Proof.
  intros Hs. unfold shl64, uint64. destruct (Z.ltb_spec s 64).
  - rewrite Z.shiftl_mul_pow2, Z.mul_1_l by lia.
    rewrite Z.mod_small by (split; [lia|apply Z.pow_lt_mono_r; lia]).
    rewrite Z.pow2_bits_eqb by lia. reflexivity.
  - rewrite Z.bits_0. destruct (Z.eqb_spec s 0); [lia|done].
Qed.

(** The lowest bit of a chunk is the one [Set] writes last. *)
Lemma setbit_lsb word pos :
  rem64 (add64 pos 1) 64 <> 0 ->
  Z.testbit (setbit word (uint64 (rem64 pos 64))) 0 = Z.testbit word 0.
Proof.
  intros Hrem. unfold setbit. rewrite Z.lor_spec.
  rewrite testbit_shl64_one by apply uint64_range.
  match goal with |- _ || (?s =? 0) = _ => destruct (Z.eqb_spec s 0) as [E|E] end;
    [|apply orb_false_r].
  exfalso. apply Hrem. unfold rem64, add64, int64, uint64 in *.
  Z.quot_rem_to_equations. Z.div_mod_to_equations. lia.
Qed.

Lemma allones_lsb : Z.testbit allones 0 = true.
Proof. reflexivity. Qed.

Lemma size_no_partial b :
  is_int64 (n b) -> rem64 (n b) 64 = 0 -> Bitmap_size b = n b.
Proof.
  unfold Bitmap_size, rem64, mul64, div64, is_int64. intros Hn Hrem.
  rewrite Hrem. cbn [Z.eqb negb].
  assert (Z.quot (n b) 64 * 64 = n b) by (Z.quot_rem_to_equations; lia).
  rewrite (int64_small (Z.quot _ _)) by (unfold is_int64; lia).
  rewrite int64_small by (unfold is_int64; lia). lia.
Qed.

Lemma well_formed_primed b :
  well_formed b ->
  Forall is_uint64 (w (primed b)) /\
  0 <= lastrlw (primed b) < len (w (primed b)) /\
  (rem64 (n b) 64 <> 0 ->
   lastrlw (primed b) < len (w (primed b)) - 1 /\
   exists lit, index (w (primed b)) (len (w (primed b)) - 1) = Done lit /\
               Z.testbit lit 0 = false).
Proof.
  intros [Hw Hn Hl Hp]. destruct Hl as [->|Hl].
  - split; [|split].
    + repeat constructor; vm_compute; congruence.
    + vm_compute. split; congruence.
    + intros H. exfalso. apply H. reflexivity.
  - rewrite primed_id by lia. auto.
Qed.

Lemma index_last_app ws x : index (ws ++ [x]) (len (ws ++ [x]) - 1) = Done x.
Proof.
  rewrite len_app. unfold len. cbn [length]. apply index_Done; [lia|].
  replace (Z.to_nat (Z.of_nat (length ws) + Z.of_nat 1 - 1)) with (length ws + 0)%nat
    by lia.
  by rewrite lookup_app_r, Nat.add_comm, Nat.add_sub by lia.
Qed.

Lemma Forall_uint64_insert ws i x :
  Forall is_uint64 ws -> is_uint64 x -> Forall is_uint64 (<[i:=x]> ws).
Proof. intros. by apply Forall_insert. Qed.

Lemma Forall_uint64_snoc ws x :
  Forall is_uint64 ws -> is_uint64 x -> Forall is_uint64 (ws ++ [x]).
Proof. intros. apply Forall_app. split; [done|]. by constructor. Qed.

Lemma index_uint64 ws i x : Forall is_uint64 ws -> index ws i = Done x -> is_uint64 x.
Proof.
  intros Hws Hx. apply index_inv in Hx as [_ Hx].
  by eapply Forall_lookup_1 in Hws.
Qed.

Ltac lens :=
  repeat first [rewrite len_app | rewrite len_insert];
  unfold len in *; cbn [length]; lia.

(** A successful [Set] keeps a bitmap well formed. *)
Lemma Set_well_formed b pos b' :
  well_formed b -> Bitmap_Set b pos = Done (b', None) -> well_formed b'.
Proof.
  intros Hwf. pose proof (wf_n b Hwf) as Hn.
  apply well_formed_primed in Hwf as (Hws & Hl & Hpart).
  unfold Bitmap_Set. destruct (Z.gtb_spec (n b) pos) as [|Hpos]; [discriminate|].
  fold (primed b). cbv zeta.
  destruct (index (w (primed b)) (lastrlw (primed b))) as [r|] eqn:Hr;
    cbn [mbind outcome_bind]; [|discriminate].
  assert (Hur : is_uint64 r) by (by eapply index_uint64).
  rewrite size_primed.
  destruct (Z.gtb_spec (Bitmap_size b) pos) as [Hin|Hout].
  - assert (Hrem : rem64 (n b) 64 <> 0).
    { intros E. rewrite (size_no_partial b Hn E) in Hin. lia. }
    destruct (Hpart Hrem) as (Hlt & lit & Hlit & Hlsb).
    assert (Hul : is_uint64 lit) by (by eapply index_uint64).
    rewrite Hlit. cbn [mbind outcome_bind].
    destruct (Z.eqb_spec (setbit lit (uint64 (rem64 pos 64))) allones) as [Hall|Hne].
    + assert (Hrem' : rem64 (add64 pos 1) 64 = 0).
      { destruct (Z.eq_dec (rem64 (add64 pos 1) 64) 0) as [|Hnz]; [done|].
        pose proof (setbit_lsb lit pos Hnz) as E.
        rewrite Hall, allones_lsb, Hlsb in E. discriminate. }
      destruct (rlw_b r && (rlw_l r =? 1) && (rlw_k r <? MaxUint32));
        intros [= <-]; constructor; cbn [n w lastrlw].
      * apply Forall_take, Forall_uint64_insert;
          [apply Forall_uint64_insert; [done|by apply setbit_uint64]|].
        apply rlw_setl_uint64; [apply rlw_setk_uint64; done|].
        unfold is_uint64; lia.
      * apply int64_range.
      * right. unfold len in *. rewrite length_take, !length_insert. lia.
      * intros H. by destruct H.
      * apply Forall_uint64_insert;
          [apply Forall_uint64_insert;
            [apply Forall_uint64_insert;
               [done|by apply setbit_uint64]|]|].
        -- apply newRlw_range; lia.
        -- apply rlw_setl_uint64; [done|apply uint32_uint64].
      * apply int64_range.
      * right. rewrite !len_insert. lia.
      * intros H. by destruct H.
    + intros [= <-]; constructor; cbn [n w lastrlw].
      * apply Forall_uint64_insert; [done|by apply setbit_uint64].
      * apply int64_range.
      * right. rewrite len_insert. lia.
      * intros Hnz. rewrite len_insert. split; [lia|].
        exists (setbit lit (uint64 (rem64 pos 64))). split.
        -- apply index_inv in Hlit as [Hi Hlk]. apply index_Done; [lia|].
           apply list_lookup_insert_eq. unfold len in *. lia.
        -- by rewrite setbit_lsb.
  - assert (Hlit0 : is_uint64 (setbit 0 (uint64 (rem64 pos 64))))
      by (apply setbit_uint64; unfold is_uint64; lia).
    assert (Hlsb0 : rem64 (add64 pos 1) 64 <> 0 ->
                    Z.testbit (setbit 0 (uint64 (rem64 pos 64))) 0 = false)
      by (intros Hnz; by rewrite setbit_lsb).
    repeat match goal with |- context [if ?c then _ else _] => destruct c end;
      intros [= <-]; constructor; cbn [n w lastrlw];
      try apply int64_range.
    + apply Forall_uint64_snoc; [|done]. apply Forall_uint64_insert; [done|].
      apply rlw_setl_uint64; [done|apply uint32_uint64].
    + right. lens.
    + intros Hnz. rewrite index_last_app.
      split; [lens|].
      eauto.
    + apply Forall_uint64_snoc; [|done]. apply Forall_uint64_insert; [done|].
      apply rlw_setl_uint64; [by apply rlw_setk_uint64|apply uint32_uint64].
    + right. lens.
    + intros Hnz. rewrite index_last_app.
      split; [lens|].
      eauto.
    + apply Forall_uint64_snoc; [|done]. apply Forall_uint64_insert; [|done].
      apply Forall_uint64_snoc; [done|]. apply newRlw_uint64.
    + right. lens.
    + intros Hnz. rewrite index_last_app.
      split; [lens|].
      eauto.
Qed.

Lemma New_well_formed : well_formed New.
Proof.
  constructor.
  - constructor.
  - vm_compute. split; congruence.
  - by left.
  - intros H. exfalso. apply H. reflexivity.
Qed.

Lemma reachable_well_formed b : reachable b -> well_formed b.
Proof.
  induction 1 as [|b pos b' _ IH Hset]; [apply New_well_formed|].
  by eapply Set_well_formed.
Qed.

Lemma sets_reachable ps : forall b b',
  reachable b -> sets b ps = Some b' -> reachable b'.
Proof.
  induction ps as [|p ps IH]; intros b b' Hb; cbn [sets].
  - by intros [= <-].
  - destruct (Bitmap_Set b p) as [[b1 [e|]]|] eqn:Hset; try discriminate.
    apply IH. by eapply reachable_Set.
Qed.

Lemma Set_success_lastrlw b pos b' :
  Bitmap_Set b pos = Done (b', None) -> 0 <= lastrlw b'.
Proof.
  unfold Bitmap_Set. destruct (Z.gtb_spec (n b) pos); [discriminate|].
  fold (primed b). cbv zeta.
  destruct (index (w (primed b)) (lastrlw (primed b))) as [r|] eqn:Hr;
    cbn [mbind outcome_bind]; [|discriminate].
  apply index_inv in Hr as [Hr _].
  destruct (Bitmap_size (primed b) >? pos).
  - destruct (index (w (primed b)) (len (w (primed b)) - 1)) as [lit|];
      cbn [mbind outcome_bind]; [|discriminate].
    repeat match goal with |- context [if ?c then _ else _] => destruct c end;
      intros [= <-]; cbn [lastrlw]; lia.
  - repeat match goal with |- context [if ?c then _ else _] => destruct c end;
      intros [= <-]; cbn [lastrlw]; try lia.
    rewrite len_insert, len_app. unfold len. cbn [length]. lia.
Qed.

Lemma sets_lastrlw ps : forall b b',
  ps <> [] -> sets b ps = Some b' -> 0 <= lastrlw b'.
Proof.
  induction ps as [|p ps IH]; intros b b' Hne; [done|]. cbn [sets].
  destruct (Bitmap_Set b p) as [[b1 [e|]]|] eqn:Hset; try discriminate.
  destruct ps as [|q ps]; [|apply IH; done].
  cbn [sets]. intros [= <-]. by eapply Set_success_lastrlw.
Qed.

(** C2 (amended).  For a bitmap built from the empty one by one or more
    successful [Set] calls, with a bit count in 0..2^32-1 and fewer than
    2^32 words, reading back the bytes written by [Write] gives the same bit
    count, the same words and the same active index, in either byte
    order. *)
Theorem Write_FromBytes_built (ps : list Z) (b : Bitmap) (bo : ByteOrder) :
  ps <> [] -> sets New ps = Some b ->
  0 <= n b < 2 ^ 32 -> len (w b) < 2 ^ 32 ->
  FromBytes (Bitmap_Write b [] bo).1.1 bo = inr b.
Proof.
  intros Hne Hb Hn Hlen.
  pose proof (sets_lastrlw ps New b Hne Hb) as Hl.
  pose proof (reachable_well_formed b
                (sets_reachable ps New b reachable_New Hb)) as Hwf.
  apply FromBytes_Write; [apply Hwf|done|done|].
  destruct (wf_lastrlw b Hwf) as [->|]; [vm_compute in Hl; congruence|lia].
Qed.

Lemma Write_FromBytes_built_witness :
  FromBytes
    (Bitmap_Write {| n := 201; w := [4294967298; 9223372036854775808;
                                     36028797018963968]; lastrlw := 0 |}
       [] BigEndian).1.1 BigEndian
  = inr {| n := 201; w := [4294967298; 9223372036854775808;
                           36028797018963968]; lastrlw := 0 |}.
Proof.
  apply (Write_FromBytes_built [0; 200]).
  - discriminate.
  - vm_compute. reflexivity.
  - cbn [n]. lia.
  - vm_compute. reflexivity.
Defined.

(** C2, as stated, fails twice.  The empty bitmap has active index -1,
    which is written as 2^32-1 and read back as 4294967295; and a single
    [Set] at 2^32 gives the bit count 2^32+1, which is written as 1. *)
Lemma Write_FromBytes_counterexample :
  sets New [] = Some New /\
  FromBytes (Bitmap_Write New [] BigEndian).1.1 BigEndian
    = inr {| n := 0; w := []; lastrlw := 4294967295 |} /\
  FromBytes (Bitmap_Write New [] BigEndian).1.1 BigEndian <> inr New /\
  exists b,
    sets New [2 ^ 32] = Some b /\ n b = 2 ^ 32 + 1 /\
    FromBytes (Bitmap_Write b [] BigEndian).1.1 BigEndian
      = inr {| n := 1; w := w b; lastrlw := lastrlw b |} /\
    FromBytes (Bitmap_Write b [] BigEndian).1.1 BigEndian <> inr b.
Proof.
  split; [reflexivity|]. split; [vm_compute; reflexivity|].
  split; [vm_compute; congruence|].
  eexists. split; [vm_compute; reflexivity|].
  split; [vm_compute; reflexivity|].
  split; [vm_compute; reflexivity|vm_compute; congruence].
Qed.

(** ** The allocated size *)

Lemma size_spec b :
  0 <= n b <= 2 ^ 63 - 64 -> Bitmap_size b = (n b + 63) / 64 * 64.
Proof.
  intros Hn. unfold Bitmap_size, rem64, mul64, div64, add64.
  assert (Hq : Z.quot (n b) 64 = n b / 64) by (apply Z.quot_div_nonneg; lia).
  assert (Hr : Z.rem (n b) 64 = n b mod 64) by (apply Z.rem_mod_nonneg; lia).
  rewrite Hq, Hr.
  rewrite (int64_small (n b / 64)) by (unfold is_int64; zdm).
  rewrite (int64_small (n b / 64 * 64)) by (unfold is_int64; zdm).
  destruct (Z.eqb_spec (n b mod 64) 0); cbn [negb].
  - zdm.
  - rewrite int64_small by (unfold is_int64; zdm). zdm.
Qed.

(** ** A run of literal words *)

Lemma many_literals_first : Bitmap_Set New 0 = Done (many_literals 1, None).
Proof. vm_compute. reflexivity. Qed.

Lemma rlw_setl_newRlw b k l l' :
  0 <= k < 2 ^ 32 -> 0 <= l < 2 ^ 31 -> 0 <= l' < 2 ^ 31 ->
  rlw_setl (newRlw b k l) l' = newRlw b k l'.
Proof.
  intros Hk Hl Hl'. rewrite rlw_setl_spec by (by try apply newRlw_range).
  rewrite !newRlw_spec by done. destruct b; zdm.
Qed.

Lemma rlw_setk_newRlw b k l k' :
  0 <= k < 2 ^ 32 -> 0 <= l < 2 ^ 31 -> 0 <= k' < 2 ^ 32 ->
  rlw_setk (newRlw b k l) k' = newRlw b k' l.
Proof.
  intros Hk Hl Hk'. rewrite rlw_setk_spec by (by try apply newRlw_range).
  rewrite !newRlw_spec by done. destruct b; zdm.
Qed.

Lemma size_many_literals m :
  (1 <= m)%nat -> Z.of_nat m <= 2 ^ 31 ->
  Bitmap_size (many_literals m) = 64 * Z.of_nat m.
Proof.
  intros H1 H2. rewrite size_spec; cbn [many_literals n]; [zdm|lia].
Qed.

Lemma many_literals_step m :
  (1 <= m)%nat -> Z.of_nat m + 1 <= 2 ^ 31 - 1 ->
  Bitmap_Set (many_literals m) (64 * Z.of_nat m)
  = Done (many_literals (S m), None).
Proof.
  intros H1 H2.
  assert (Hpr : primed (many_literals m) = many_literals m)
    by (by apply primed_id).
  rewrite (Set_literal _ _ (newRlw false 0 (Z.of_nat m)));
    rewrite ?Hpr, ?size_many_literals by lia.
  - cbn [many_literals w lastrlw n]. unfold add64.
    rewrite int64_small by (unfold is_int64; lia).
    rewrite rlw_l_newRlw, uint32_small, rlw_setl_newRlw by lia.
    replace (rem64 (64 * Z.of_nat m) 64) with 0
      by (unfold rem64; Z.quot_rem_to_equations; lia).
    change (setbit 0 (uint64 0)) with (2 ^ 63).
    change (Z.to_nat 0) with 0%nat. cbn [insert list_insert].
    unfold many_literals. rewrite (replicate_S_end m). cbn [app].
    replace (64 * (Z.of_nat (S m) - 1) + 1) with (64 * Z.of_nat m + 1) by lia.
    replace (Z.of_nat (S m)) with (Z.of_nat m + 1) by lia. reflexivity.
  - cbn [many_literals n]. lia.
  - reflexivity.
  - lia.
  - unfold sub64. rewrite Z.sub_diag. reflexivity.
  - rewrite rlw_l_newRlw, uint32_small by lia. rewrite maxUint31_eq. lia.
Qed.

Lemma many_literals_reachable m :
  (1 <= m)%nat -> Z.of_nat m <= 2 ^ 31 - 1 -> reachable (many_literals m).
Proof.
  induction m as [|m IH]; [lia|]. intros _ Hm.
  destruct m as [|m].
  - eapply reachable_Set; [apply reachable_New|apply many_literals_first].
  - eapply reachable_Set; [apply IH; lia|].
    apply many_literals_step; lia.
Qed.

(** With 2^31-1 literals in the active block, a [Set] one empty chunk
    further on takes the [k > 0] path, which does not test the literal
    count: the count wraps to 0 in its field. *)
Lemma literal_overflow_step m :
  Z.of_nat m = 2 ^ 31 - 1 ->
  Bitmap_Set (many_literals m) (64 * (Z.of_nat m + 1))
  = Done ({| n := 64 * (Z.of_nat m + 1) + 1;
             w := newRlw false 1 0 :: replicate m (2 ^ 63) ++ [2 ^ 63];
             lastrlw := 0 |}, None).
Proof.
  intros Hm.
  assert (Hpr : primed (many_literals m) = many_literals m)
    by (by apply primed_id).
  assert (Hk : div64 (sub64 (64 * (Z.of_nat m + 1)) (64 * Z.of_nat m)) 64 = 1).
  { replace (sub64 (64 * (Z.of_nat m + 1)) (64 * Z.of_nat m)) with (sub64 64 0)
      by (unfold sub64; f_equal; lia).
    reflexivity. }
  rewrite (Set_gap _ _ (newRlw false 0 (Z.of_nat m)));
    rewrite ?Hpr, ?size_many_literals, ?Hk by lia.
  - cbn [many_literals w lastrlw n]. unfold add64.
    rewrite int64_small by (unfold is_int64; lia).
    replace (rem64 (64 * (Z.of_nat m + 1)) 64) with 0
      by (unfold rem64; Z.quot_rem_to_equations; lia).
    rewrite Hm.
    change (setbit 0 (uint64 0)) with (2 ^ 63).
    change (Z.to_nat 0) with 0%nat. cbn [insert list_insert app].
    match goal with |- context [rlw_setl ?a ?c :: _] =>
      replace (rlw_setl a c) with (newRlw false 1 0) by (vm_compute; reflexivity)
    end.
    reflexivity.
  - cbn [many_literals n]. lia.
  - reflexivity.
  - lia.
  - lia.
  - rewrite rlw_k_newRlw by lia. vm_compute. discriminate.
Qed.

(** ** Block structure *)

Lemma walk_lower fuel ws : forall i j, walk fuel ws i = Some j -> i <= j.
Proof.
  induction fuel as [|fuel IH]; intros i j; cbn [walk]; [discriminate|].
  destruct (index ws i) as [r|]; [|discriminate].
  pose proof (rlw_l_range r).
  destruct (i + 1 + rlw_l r =? len ws); [intros [= <-]; lia|].
  destruct (i + 1 + rlw_l r <? len ws); [|discriminate].
  intros Hw. apply IH in Hw. lia.
Qed.

Lemma block_structure_many_literals m :
  Z.of_nat m <= 2 ^ 31 - 1 -> block_structure (many_literals m).
Proof.
  intros Hm. unfold block_structure, many_literals. cbn [w lastrlw length walk].
  change (index (?x :: ?l) 0) with (Done x). cbv iota.
  rewrite rlw_l_newRlw by lia.
  replace (0 + 1 + Z.of_nat m =? len (newRlw false 0 (Z.of_nat m) :: replicate m (2 ^ 63)))
    with true; [reflexivity|].
  symmetry. apply Z.eqb_eq. unfold len. cbn [length]. rewrite length_replicate. lia.
Qed.

Lemma literal_overflow_reachable :
  exists b b',
    reachable b /\ block_structure b /\
    (exists r, index (w b) (lastrlw b) = Done r /\ rlw_l r = maxUint31) /\
    Bitmap_Set b (64 * 2 ^ 31) = Done (b', None) /\
    lastrlw b' = lastrlw b /\ lastrlw b' = 0 /\
    len (w b') = len (w b) + 1 /\ len (w b') = 2 ^ 31 + 1 /\
    index (w b') (lastrlw b') = Done (newRlw false 1 0).
Proof.
  pose proof (Z2Nat.id (2 ^ 31 - 1) ltac:(lia)) as Hm.
  remember (Z.to_nat (2 ^ 31 - 1)) as m eqn:Em. clear Em.
  exists (many_literals m). eexists.
  split; [apply many_literals_reachable; lia|].
  split; [apply block_structure_many_literals; lia|].
  split.
  { exists (newRlw false 0 (Z.of_nat m)). split; [reflexivity|].
    rewrite rlw_l_newRlw by lia. rewrite Hm. reflexivity. }
  split.
  { replace (64 * 2 ^ 31) with (64 * (Z.of_nat m + 1)) by lia.
    apply literal_overflow_step. exact Hm. }
  cbn [w lastrlw many_literals]. split; [reflexivity|]. split; [reflexivity|].
  unfold len. cbn [length]. rewrite length_app, !length_replicate. cbn [length].
  split; [lia|]. split; [lia|reflexivity].
Qed.

(** C4 fails on the code.  The bitmap with 2^31-1 literal words in its
    active block is built by [Set] calls and has the block structure; the
    next [Set], one empty chunk further on, succeeds and leaves an active
    RLW whose literal count reads 0 in front of 2^31 literal words, so the
    walk in steps of [1 + l] from index 0 does not end on the active
    index. *)
Theorem block_structure_lost :
  exists b b',
    reachable b /\ block_structure b /\
    Bitmap_Set b (64 * 2 ^ 31) = Done (b', None) /\
    ~ block_structure b'.
Proof.
  destruct literal_overflow_reachable
    as (b & b' & Hb & Hs & _ & Hset & _ & Hl & _ & Hlen & Hr).
  exists b, b'. split; [done|]. split; [done|]. split; [done|].
  unfold block_structure. rewrite Hl in *.
  destruct (w b') as [|x ws]; [unfold len in Hlen; cbn [length] in Hlen; lia|].
  cbn [length walk]. rewrite Hr, rlw_l_newRlw by lia.
  destruct (Z.eqb_spec (0 + 1 + 0) (len (x :: ws))); [lia|].
  destruct (Z.ltb_spec (0 + 1 + 0) (len (x :: ws))); [|discriminate].
  intros Hw. apply walk_lower in Hw. lia.
Qed.

(** C5 fails on the code, on the same path.  On a bitmap built by [Set]
    calls whose active RLW already counts 2^31-1 literals, a [Set] with a
    gap extends that RLW instead of starting a new block: the active index
    stays, one word (the literal) is appended, and the literal count field
    of the active RLW wraps to 0. *)
Theorem literal_count_overflow :
  exists b r b' r',
    reachable b /\
    index (w b) (lastrlw b) = Done r /\ rlw_l r = maxUint31 /\
    Bitmap_Set b (64 * 2 ^ 31) = Done (b', None) /\
    lastrlw b' = lastrlw b /\ len (w b') = len (w b) + 1 /\
    index (w b') (lastrlw b') = Done r' /\
    rlw_k r' = 1 /\ rlw_l r' = 0.
Proof.
  destruct literal_overflow_reachable
    as (b & b' & Hb & _ & (r & Hr & Hrl) & Hset & Hl & _ & Hlen & _ & Hr').
  exists b, r, b', (newRlw false 1 0).
  split; [exact Hb|]. split; [exact Hr|]. split; [exact Hrl|].
  split; [exact Hset|]. split; [exact Hl|]. split; [exact Hlen|].
  split; [exact Hr'|].
  rewrite rlw_k_newRlw, rlw_l_newRlw by lia. split; reflexivity.
Qed.

(** * Further properties of the code *)

(** ** Bitmaps built by [Set] *)

(** On a bitmap built by [Set] calls, [Set] never panics: it rejects a
    position below the bit count and succeeds at every other one. *)
Theorem Set_total_on_built (ps : list Z) (b : Bitmap) (pos : Z) :
  sets New ps = Some b ->
  Bitmap_Set b pos <> Panic /\
  (pos < n b -> Bitmap_Set b pos = Done (b, Some ErrInvalidBitSet)) /\
  (n b <= pos -> exists b', Bitmap_Set b pos = Done (b', None)).
Proof.
  intros Hb.
  pose proof (reachable_well_formed b
                (sets_reachable ps New b reachable_New Hb)) as Hwf.
  assert (Hv : lastrlw b < 0 \/ lastrlw b < len (w b)).
  { destruct (wf_lastrlw b Hwf) as [->|]; [left; reflexivity|right; lia]. }
  assert (Hok : n b <= pos -> exists b', Bitmap_Set b pos = Done (b', None))
    by (by apply Set_succeeds).
  split; [|split; [apply Set_rejects|exact Hok]].
  destruct (Z.lt_ge_cases pos (n b)) as [Hlt|Hge].
  - rewrite Set_rejects by done. discriminate.
  - destruct (Hok Hge) as [b' ->]. discriminate.
Qed.

Lemma Set_total_on_built_witness :
  Bitmap_Set {| n := 201; w := [4294967298; 9223372036854775808;
                                36028797018963968]; lastrlw := 0 |} 500
  <> Panic.
Proof.
  apply (Set_total_on_built [0; 200]). vm_compute. reflexivity.
Defined.

(** Every bitmap built by [Set] calls holds 64-bit words and an int64 bit
    count; after the first call its active index is inside the word array;
    and while the last chunk is only partly written (the bit count is not a
    multiple of 64) the last word is a literal behind the active RLW whose
    lowest bit is still 0. *)
Theorem built_well_formed (ps : list Z) (b : Bitmap) :
  sets New ps = Some b ->
  Forall is_uint64 (w b) /\ is_int64 (n b) /\
  (ps <> [] -> 0 <= lastrlw b < len (w b)) /\
  (rem64 (n b) 64 <> 0 ->
   lastrlw b < len (w b) - 1 /\
   exists lit, index (w b) (len (w b) - 1) = Done lit /\
               Z.testbit lit 0 = false).
Proof.
  intros Hb.
  pose proof (reachable_well_formed b
                (sets_reachable ps New b reachable_New Hb)) as Hwf.
  split; [apply Hwf|]. split; [apply Hwf|]. split; [|apply Hwf].
  intros Hne. pose proof (sets_lastrlw ps New b Hne Hb) as Hl.
  destruct (wf_lastrlw b Hwf) as [->|]; [vm_compute in Hl; congruence|lia].
Qed.

Lemma built_well_formed_witness :
  Forall is_uint64 [4294967298; 9223372036854775808; 36028797018963968].
Proof.
  apply (built_well_formed [0; 200]
           {| n := 201; w := [4294967298; 9223372036854775808;
                              36028797018963968]; lastrlw := 0 |}).
  vm_compute. reflexivity.
Defined.

(** A successful [Set] at a position below the largest int64 leaves a bit
    count one above the position, hence above the old bit count, and [Bits]
    then reports that count modulo 2^32. *)
Theorem Set_advances (b b' : Bitmap) (pos : Z) :
  is_int64 pos -> pos < MaxInt64 ->
  Bitmap_Set b pos = Done (b', None) ->
  n b' = pos + 1 /\ n b < n b' /\ Bitmap_Bits b' = (pos + 1) mod 2 ^ 32.
Proof.
  intros Hp Hmax Hset. apply Set_success_n in Hset as [Hn Hn'].
  assert (E : n b' = pos + 1).
  { rewrite Hn'. apply int64_small. unfold is_int64, MaxInt64 in *. lia. }
  unfold Bitmap_Bits, uint32. rewrite E. split; [done|]. split; [lia|done].
Qed.

Lemma Set_advances_witness :
  n (many_literals 1) = 0 + 1 /\ n New < n (many_literals 1) /\
  Bitmap_Bits (many_literals 1) = (0 + 1) mod 2 ^ 32.
Proof.
  apply (Set_advances New (many_literals 1) 0).
  - vm_compute. split; congruence.
  - vm_compute. reflexivity.
  - vm_compute. reflexivity.
Defined.

(** ** [size], [Bytes] and [Reset] *)

(** For a bit count from 0 to 2^63-64, [size] is the bit count rounded up
    to a multiple of 64: it is at least the bit count and less than 64
    above it. *)
Theorem size_rounds_up (b : Bitmap) :
  0 <= n b <= 2 ^ 63 - 64 ->
  Bitmap_size b = (n b + 63) / 64 * 64 /\
  n b <= Bitmap_size b < n b + 64 /\
  Bitmap_size b mod 64 = 0.
Proof.
  intros Hn. rewrite size_spec by done. split; [reflexivity|]. split; zdm.
Qed.

Lemma size_rounds_up_witness :
  Bitmap_size {| n := 201; w := []; lastrlw := -1 |} = (201 + 63) / 64 * 64.
Proof.
  apply (size_rounds_up {| n := 201; w := []; lastrlw := -1 |}).
  cbn [n]. lia.
Defined.

(** Above 2^63-64 the rounding overflows the int64: [size] is then the
    least int64, below the bit count. *)
Theorem size_wraps (b : Bitmap) :
  2 ^ 63 - 64 < n b < 2 ^ 63 ->
  Bitmap_size b = MinInt64 /\ Bitmap_size b < n b.
Proof.
  intros Hn. unfold Bitmap_size, rem64, mul64, div64, add64, MinInt64.
  assert (Hq : Z.quot (n b) 64 = 2 ^ 57 - 1) by (Z.quot_rem_to_equations; lia).
  assert (Hr : Z.rem (n b) 64 <> 0) by (Z.quot_rem_to_equations; lia).
  rewrite Hq. destruct (Z.eqb_spec (Z.rem (n b) 64) 0); [done|].
  cbn [negb]. split; [reflexivity|].
  change (int64 (int64 (int64 (2 ^ 57 - 1) * 64) + 64)) with (- 2 ^ 63). lia.
Qed.

Lemma size_wraps_witness :
  Bitmap_size {| n := MaxInt64; w := []; lastrlw := -1 |} = MinInt64.
Proof.
  apply (size_wraps {| n := MaxInt64; w := []; lastrlw := -1 |}).
  cbn [n]. unfold MaxInt64. lia.
Defined.

(** [Bytes] is eight times the number of words, as long as that number is
    below 2^57. *)
Theorem Bytes_eight_per_word (b : Bitmap) :
  len (w b) < 2 ^ 57 -> Bitmap_Bytes b = 8 * len (w b).
Proof.
  intros Hlen. unfold Bitmap_Bytes, div64.
  assert (0 <= len (w b)) by (unfold len; lia).
  rewrite (int64_small (len (w b) * 64)) by (unfold is_int64; lia).
  rewrite Z.quot_div_nonneg by lia.
  rewrite int64_small by (unfold is_int64; zdm). zdm.
Qed.

Lemma Bytes_eight_per_word_witness :
  Bitmap_Bytes {| n := 201; w := [4294967298; 9223372036854775808;
                                  36028797018963968]; lastrlw := 0 |}
  = 8 * 3.
Proof.
  apply (Bytes_eight_per_word
           {| n := 201; w := [4294967298; 9223372036854775808;
                              36028797018963968]; lastrlw := 0 |}).
  vm_compute. reflexivity.
Defined.

(** ** [setbit] *)

Lemma setbit_testbit word idx i :
  0 <= idx < 64 -> 0 <= i ->
  Z.testbit (setbit word idx) i = Z.testbit word i || (i =? 63 - idx).
Proof.
  intros Hidx Hi. unfold setbit.
  replace (uint64 (uint64 (64 - idx) - 1)) with (63 - idx)
    by (unfold uint64; zdm).
  rewrite Z.lor_spec. f_equal. unfold shl64, uint64.
  destruct (Z.ltb_spec (63 - idx) 64); [|lia].
  rewrite Z.shiftl_mul_pow2, Z.mul_1_l by lia.
  rewrite Z.mod_small by (split; [lia|apply Z.pow_lt_mono_r; lia]).
  rewrite Z.pow2_bits_eqb by lia. apply Z.eqb_sym.
Qed.

(** For an index from 0 to 63, [setbit] sets bit [63 - idx] (index 0 is the
    most significant bit) and keeps every other bit; for any larger uint64
    index it changes nothing. *)
Theorem setbit_spec (word idx : Z) :
  0 <= idx < 2 ^ 64 ->
  (idx < 64 ->
   forall i, 0 <= i ->
     Z.testbit (setbit word idx) i = Z.testbit word i || (i =? 63 - idx)) /\
  (64 <= idx -> setbit word idx = word).
Proof.
  intros Hidx. split.
  - intros Hlt i Hi. apply setbit_testbit; lia.
  - intros Hge. unfold setbit. unfold shl64.
    destruct (Z.ltb_spec (uint64 (uint64 (64 - idx) - 1)) 64) as [Hs|];
      [|apply Z.lor_0_r].
    exfalso. unfold uint64 in Hs. zdm.
Qed.

Lemma setbit_spec_witness : setbit 5 64 = 5.
Proof.
  apply (setbit_spec 5 64); lia.
Defined.

(** ** The mutators of the codec *)

(** Setting a field and reading it back: [setk] stores any uint32 run
    count, [setl] any literal count below 2^31. *)
Theorem rlw_set_then_get (r k l : Z) :
  is_uint64 r -> 0 <= k < 2 ^ 32 -> 0 <= l < 2 ^ 31 ->
  rlw_k (rlw_setk r k) = k /\ rlw_l (rlw_setl r l) = l.
Proof.
  unfold is_uint64. intros Hr Hk Hl.
  rewrite rlw_k_setk, rlw_l_setl by done. done.
Qed.

Lemma rlw_set_then_get_witness :
  rlw_k (rlw_setk allones 10) = 10 /\ rlw_l (rlw_setl allones 5) = 5.
Proof.
  apply (rlw_set_then_get allones 10 5); [|lia|lia].
  vm_compute. split; congruence.
Defined.

Lemma lor_bit31 x :
  Z.land (Z.shiftr (Z.lor x (2 ^ 31)) 31) (Z.ones 32)
  = Z.lor (Z.land (Z.shiftr x 31) (Z.ones 32)) 1.
Proof.
  change (2 ^ 31) with (Z.shiftl 1 31). change 1 with (Z.ones 1). bits.
Qed.

(** [setl] does not mask its argument: a uint32 literal count of 2^31 or
    more stores its low 31 bits as the literal count and sets the lowest
    bit of the run count. *)
Theorem rlw_setl_spills (r l : Z) :
  is_uint64 r -> 2 ^ 31 <= l < 2 ^ 32 ->
  rlw_l (rlw_setl r l) = l - 2 ^ 31 /\
  rlw_k (rlw_setl r l) = Z.lor (rlw_k r) 1.
Proof.
  unfold is_uint64. intros Hr Hl.
  assert (E : rlw_setl r l = Z.lor (rlw_setl r (l - 2 ^ 31)) (2 ^ 31)).
  { unfold rlw_setl. rewrite <- Z.lor_assoc. f_equal.
    replace l with ((l - 2 ^ 31) + 1 * 2 ^ 31) at 1 by lia.
    rewrite Z.add_comm, <- lor_disjoint_add by lia. rewrite Z.lor_comm.
    reflexivity. }
  assert (Hs : 0 <= rlw_setl r (l - 2 ^ 31) < 2 ^ 64)
    by (apply rlw_setl_range; lia).
  split.
  - rewrite E, rlw_l_spec. rewrite Z.lor_comm.
    change (2 ^ 31) with (1 * 2 ^ 31) at 1.
    rewrite <- (rlw_l_setl r (l - 2 ^ 31)) at 2 by lia.
    rewrite (rlw_l_spec (rlw_setl _ _)).
    rewrite <- !Z.land_ones by lia.
    change (1 * 2 ^ 31) with (Z.shiftl 1 31). change 1 with (Z.ones 1). bits.
  - rewrite E. rewrite <- (rlw_k_setl r (l - 2 ^ 31)) by lia.
    rewrite !rlw_k_spec, <- !Z.shiftr_div_pow2, <- !Z.land_ones by lia.
    apply lor_bit31.
Qed.

Lemma rlw_setl_spills_witness :
  rlw_l (rlw_setl (newRlw false 1 (2 ^ 31 - 1)) (2 ^ 31)) = 2 ^ 31 - 2 ^ 31 /\
  rlw_k (rlw_setl (newRlw false 1 (2 ^ 31 - 1)) (2 ^ 31))
  = Z.lor (rlw_k (newRlw false 1 (2 ^ 31 - 1))) 1.
Proof.
  apply (rlw_setl_spills (newRlw false 1 (2 ^ 31 - 1)) (2 ^ 31)); [|lia].
  vm_compute. split; congruence.
Defined.

(** ** What [Write] produces *)

Lemma byte_is_byte v : is_byte (byte v).
Proof. unfold is_byte. rewrite byte_spec. zdm. Qed.

Lemma PutUint32_bytes bo v : Forall is_byte (PutUint32 bo v).
Proof. destruct bo; repeat constructor; apply byte_is_byte. Qed.

Lemma PutUint64_bytes bo v : Forall is_byte (PutUint64 bo v).
Proof. destruct bo; repeat constructor; apply byte_is_byte. Qed.

Lemma length_words_bytes bo ws :
  length (concat (map (PutUint64 bo) ws)) = (8 * length ws)%nat.
Proof.
  induction ws as [|word ws IH]; [reflexivity|].
  cbn [map concat length]. rewrite length_app, length_PutUint64, IH. lia.
Qed.

Lemma words_bytes bo ws : Forall is_byte (concat (map (PutUint64 bo) ws)).
Proof.
  induction ws as [|word ws IH]; [constructor|].
  cbn [map concat]. apply Forall_app. split; [apply PutUint64_bytes|done].
Qed.

(** [Write] into a buffer never fails; it appends bytes only (every value
    is below 256), exactly 12 plus 8 per word, and, with fewer than 2^59
    words, returns that number. *)
Theorem Write_output (b : Bitmap) (out : list Z) (bo : ByteOrder) :
  (Bitmap_Write b out bo).2 = None /\
  (exists bytes,
     (Bitmap_Write b out bo).1.1 = out ++ bytes /\
     Forall is_byte bytes /\
     len bytes = 12 + 8 * len (w b)) /\
  (len (w b) < 2 ^ 59 -> (Bitmap_Write b out bo).1.2 = 12 + 8 * len (w b)).
Proof.
  rewrite Bitmap_Write_eq. cbn [fst snd]. split; [reflexivity|]. split.
  - eexists. split; [reflexivity|]. split.
    + repeat (apply Forall_app; split);
        auto using PutUint32_bytes, words_bytes.
    + unfold len.
      rewrite !length_app, !length_PutUint32, length_words_bytes. lia.
  - intros Hlen. assert (0 <= len (w b)) by (unfold len; lia).
    unfold add64, mul64.
    rewrite (int64_small (len (w b) * 8)) by (unfold is_int64; lia).
    rewrite int64_small by (unfold is_int64; lia). lia.
Qed.

Lemma Write_output_witness :
  (Bitmap_Write New [] BigEndian).1.2 = 12 + 8 * len (w New).
Proof.
  apply (Write_output New [] BigEndian). vm_compute. reflexivity.
Defined.

(** ** What [FromReader] accepts *)

Lemma le_uint32_range a b c d :
  is_byte a -> is_byte b -> is_byte c -> is_byte d ->
  le_uint32 [a; b; c; d] = a + b * 2 ^ 8 + c * 2 ^ 16 + d * 2 ^ 24.
Proof.
  unfold is_byte, le_uint32. intros Ha Hb Hc Hd.
  rewrite (lor_shiftl_add _ _ 8) by lia.
  rewrite (lor_shiftl_add _ _ 16) by lia.
  rewrite (lor_shiftl_add _ _ 24) by lia. reflexivity.
Qed.

Lemma le_uint64_sum a b c d e f g h :
  is_byte a -> is_byte b -> is_byte c -> is_byte d ->
  is_byte e -> is_byte f -> is_byte g -> is_byte h ->
  le_uint64 [a; b; c; d; e; f; g; h]
  = a + b * 2 ^ 8 + c * 2 ^ 16 + d * 2 ^ 24 + e * 2 ^ 32 + f * 2 ^ 40
    + g * 2 ^ 48 + h * 2 ^ 56.
Proof.
  unfold is_byte, le_uint64. intros Ha Hb Hc Hd He Hf Hg Hh.
  rewrite (lor_shiftl_add _ _ 8) by lia.
  rewrite (lor_shiftl_add _ _ 16) by lia.
  rewrite (lor_shiftl_add _ _ 24) by lia.
  rewrite (lor_shiftl_add _ _ 32) by lia.
  rewrite (lor_shiftl_add _ _ 40) by lia.
  rewrite (lor_shiftl_add _ _ 48) by lia.
  rewrite (lor_shiftl_add _ _ 56) by lia. reflexivity.
Qed.

Lemma le_bytes32_uint32 a b c d :
  is_byte a -> is_byte b -> is_byte c -> is_byte d ->
  le_bytes32 (le_uint32 [a; b; c; d]) = [a; b; c; d].
Proof.
  intros Ha Hb Hc Hd. rewrite le_uint32_range by done.
  unfold is_byte in *. unfold le_bytes32.
  rewrite !byte_spec, !Z.shiftr_div_pow2 by lia.
  repeat f_equal; zdm.
Qed.

Lemma le_bytes64_uint64 a b c d e f g h :
  is_byte a -> is_byte b -> is_byte c -> is_byte d ->
  is_byte e -> is_byte f -> is_byte g -> is_byte h ->
  le_bytes64 (le_uint64 [a; b; c; d; e; f; g; h]) = [a; b; c; d; e; f; g; h].
Proof.
  intros Ha Hb Hc Hd He Hf Hg Hh. rewrite le_uint64_sum by done.
  unfold is_byte in *. unfold le_bytes64.
  rewrite !byte_spec, !Z.shiftr_div_pow2 by lia.
  repeat f_equal; zdm.
Qed.

Lemma ReadAtLeast_ok r k :
  (k <= length r)%nat -> ReadAtLeast r k = (drop k r, inr (take k r)).
Proof.
  intros Hk. unfold ReadAtLeast.
  destruct (Nat.ltb_spec (length r) k); [lia|reflexivity].
Qed.

Lemma ReadAtLeast_short r k :
  (length r < k)%nat -> ReadAtLeast r k = ([], inl (short_read r)).
Proof.
  intros Hk. unfold ReadAtLeast.
  destruct (Nat.ltb_spec (length r) k); [reflexivity|lia].
Qed.

Lemma take4_bytes r :
  Forall is_byte r -> (4 <= length r)%nat ->
  exists a b c d, take 4 r = [a; b; c; d] /\
                  is_byte a /\ is_byte b /\ is_byte c /\ is_byte d.
Proof.
  intros Hr Hl.
  destruct r as [|a [|b [|c [|d r]]]]; cbn [length] in Hl; try lia.
  exists a, b, c, d. split; [reflexivity|].
  repeat match goal with H : Forall _ (_ :: _) |- _ =>
    apply Forall_cons_1 in H as [? H] end. auto.
Qed.

Lemma take8_bytes r :
  Forall is_byte r -> (8 <= length r)%nat ->
  exists a b c d e f g h, take 8 r = [a; b; c; d; e; f; g; h] /\
    is_byte a /\ is_byte b /\ is_byte c /\ is_byte d /\
    is_byte e /\ is_byte f /\ is_byte g /\ is_byte h.
Proof.
  intros Hr Hl.
  destruct r as [|a [|b [|c [|d [|e [|f [|g [|h r]]]]]]]];
    cbn [length] in Hl; try lia.
  exists a, b, c, d, e, f, g, h. split; [reflexivity|].
  repeat match goal with H : Forall _ (_ :: _) |- _ =>
    apply Forall_cons_1 in H as [? H] end. auto 10.
Qed.

Lemma rev4 {A} (a b c d : A) : rev [a; b; c; d] = [d; c; b; a].
Proof. reflexivity. Qed.

Lemma rev8 {A} (a b c d e f g h : A) :
  rev [a; b; c; d; e; f; g; h] = [h; g; f; e; d; c; b; a].
Proof. reflexivity. Qed.

(** Four bytes decode to a uint32 and encode back to themselves. *)
Lemma Uint32_take r bo :
  Forall is_byte r -> (4 <= length r)%nat ->
  0 <= Uint32 bo (take 4 r) < 2 ^ 32 /\
  PutUint32 bo (Uint32 bo (take 4 r)) = take 4 r.
Proof.
  intros Hr Hl. destruct (take4_bytes r Hr Hl) as (a & b & c & d & -> & Ha & Hb & Hc & Hd).
  destruct bo; unfold Uint32, PutUint32; rewrite ?rev4.
  - rewrite le_bytes32_uint32, le_uint32_range by done.
    unfold is_byte in *. split; [lia|reflexivity].
  - rewrite le_bytes32_uint32, le_uint32_range by done.
    unfold is_byte in *. split; [lia|reflexivity].
Qed.

Lemma Uint64_take r bo :
  Forall is_byte r -> (8 <= length r)%nat ->
  is_uint64 (Uint64 bo (take 8 r)) /\
  PutUint64 bo (Uint64 bo (take 8 r)) = take 8 r.
Proof.
  intros Hr Hl.
  destruct (take8_bytes r Hr Hl)
    as (a & b & c & d & e & f & g & h & -> & Ha & Hb & Hc & Hd & He & Hf & Hg & Hh).
  destruct bo; unfold Uint64, PutUint64, is_uint64; rewrite ?rev8.
  - rewrite le_bytes64_uint64, le_uint64_sum by done.
    unfold is_byte in *. split; [lia|reflexivity].
  - rewrite le_bytes64_uint64, le_uint64_sum by done.
    unfold is_byte in *. split; [lia|reflexivity].
Qed.

Lemma Forall_bytes_drop k r : Forall is_byte r -> Forall is_byte (drop k r).
Proof. apply Forall_drop. Qed.

(** The word loop of [FromReader]: it reads [cnt] words when the stream
    holds them, and otherwise fails at the first word that is cut short. *)
Lemma readWords_spec bo cnt : forall r i,
  Forall is_byte r ->
  ((8 * cnt <= length r)%nat ->
   exists ws, readWords r bo cnt i = (drop (8 * cnt) r, inr ws) /\
     length ws = cnt /\ Forall is_uint64 ws /\
     concat (map (PutUint64 bo) ws) = take (8 * cnt) r) /\
  ((length r < 8 * cnt)%nat ->
   readWords r bo cnt i =
   ([], inl (CantReadWord (i + Z.of_nat (length r / 8) + 1)
               (short_read (drop (8 * (length r / 8)) r))))).
Proof.
  induction cnt as [|cnt IH]; intros r i Hr.
  { split; [|lia]. intros _. exists []. cbn [readWords]. rewrite drop_0. by repeat split. }
  cbn [readWords]. unfold readUint64. split.
  - intros Hl. rewrite ReadAtLeast_ok by lia.
    destruct (IH (drop 8 r) (i + 1) (Forall_bytes_drop 8 r Hr)) as [IHok _].
    destruct IHok as (ws & -> & Hlen & Hws & Hcat); [rewrite length_drop; lia|].
    destruct (Uint64_take r bo Hr) as [Hu Hput]; [lia|].
    exists (Uint64 bo (take 8 r) :: ws). rewrite drop_drop.
    replace (8 + 8 * cnt)%nat with (8 * S cnt)%nat by lia.
    split; [reflexivity|]. split; [cbn [length]; lia|].
    split; [by constructor|].
    cbn [map concat]. rewrite Hput, Hcat.
    replace (8 * S cnt)%nat with (8 + 8 * cnt)%nat by lia.
    rewrite <- (take_drop 8 (take (8 + 8 * cnt) r)).
    rewrite take_take, skipn_firstn_comm.
    f_equal; f_equal; lia.
  - intros Hl. destruct (Nat.lt_ge_cases (length r) 8) as [Hs|Hs].
    + rewrite ReadAtLeast_short by done.
      replace (length r / 8)%nat with 0%nat by (symmetry; apply Nat.div_small; lia).
      rewrite drop_0. do 3 f_equal. lia.
    + rewrite ReadAtLeast_ok by done.
      destruct (IH (drop 8 r) (i + 1) (Forall_bytes_drop 8 r Hr)) as [_ IHko].
      rewrite IHko by (rewrite length_drop; lia).
      rewrite length_drop, drop_drop.
      assert (E : (length r / 8 = S ((length r - 8) / 8))%nat).
      { pose proof (Nat.div_mod_eq (length r) 8).
        pose proof (Nat.div_mod_eq (length r - 8) 8).
        pose proof (Nat.mod_upper_bound (length r) 8).
        pose proof (Nat.mod_upper_bound (length r - 8) 8). lia. }
      rewrite E. set (q := ((length r - 8) / 8)%nat).
      replace (i + Z.of_nat (S q) + 1) with (i + 1 + Z.of_nat q + 1) by lia.
      replace (8 * S q)%nat with (8 + 8 * q)%nat by lia. reflexivity.
Qed.

Lemma take_split {A} a b (l : list A) :
  take (a + b) l = take a l ++ take b (drop a l).
Proof.
  revert l. induction a as [|a IH]; intros [|x l]; cbn; rewrite ?take_nil; try done.
  by rewrite IH.
Qed.

Lemma FromReader_ok r bo :
  Forall is_byte r ->
  (12 + 8 * Z.to_nat (Uint32 bo (take 4 (drop 4 r))) <= length r)%nat ->
  exists ws,
    FromReader r bo =
      inr {| n := Uint32 bo (take 4 r); w := ws;
             lastrlw := Uint32 bo (take 4 (drop (8 + 8 * length ws) r)) |} /\
    length ws = Z.to_nat (Uint32 bo (take 4 (drop 4 r))) /\
    Forall is_uint64 ws /\
    concat (map (PutUint64 bo) ws) = take (8 * length ws) (drop 8 r).
Proof.
  intros Hr Hl. set (cnt := Z.to_nat (Uint32 bo (take 4 (drop 4 r)))) in *.
  unfold FromReader, readUint32.
  rewrite ReadAtLeast_ok by lia.
  rewrite ReadAtLeast_ok by (rewrite length_drop; lia).
  fold cnt. rewrite drop_drop. change (4 + 4)%nat with 8%nat.
  destruct (readWords_spec bo cnt (drop 8 r) 0 (Forall_bytes_drop 8 r Hr))
    as [Hok _].
  destruct Hok as (ws & -> & Hlen & Hws & Hcat); [rewrite length_drop; lia|].
  rewrite ReadAtLeast_ok by (rewrite !length_drop; lia).
  rewrite drop_drop.
  destruct (Uint32_take r bo Hr) as [Hb _]; [lia|].
  destruct (Uint32_take (drop (8 + 8 * cnt) r) bo) as [Hlast _];
    [by apply Forall_bytes_drop|rewrite length_drop; lia|].
  exists ws. rewrite Hlen.
  rewrite !int64_small by (unfold is_int64; lia).
  auto.
Qed.

Lemma FromReader_short r bo :
  Forall is_byte r ->
  (length r < 12 + 8 * Z.to_nat (Uint32 bo (take 4 (drop 4 r))))%nat ->
  exists e, FromReader r bo = inl e.
Proof.
  intros Hr Hl. set (cnt := Z.to_nat (Uint32 bo (take 4 (drop 4 r)))) in *.
  unfold FromReader, readUint32.
  destruct (Nat.lt_ge_cases (length r) 4).
  { rewrite ReadAtLeast_short by done. eauto. }
  rewrite ReadAtLeast_ok by lia.
  destruct (Nat.lt_ge_cases (length r) 8).
  { rewrite ReadAtLeast_short by (rewrite length_drop; lia). eauto. }
  rewrite ReadAtLeast_ok by (rewrite length_drop; lia).
  fold cnt. rewrite drop_drop. change (4 + 4)%nat with 8%nat.
  destruct (readWords_spec bo cnt (drop 8 r) 0 (Forall_bytes_drop 8 r Hr))
    as [Hok Hko].
  destruct (Nat.lt_ge_cases (length r) (8 + 8 * cnt)).
  { rewrite Hko by (rewrite length_drop; lia). eauto. }
  destruct Hok as (ws & -> & _); [rewrite length_drop; lia|].
  rewrite ReadAtLeast_short by (rewrite !length_drop; lia). eauto.
Qed.

(** [FromReader] on a stream of bytes: which error it returns when the
    stream ends inside the bit count, the word count, a word or the active
    index, and what it returns when the stream is long enough (bytes after
    the active index are not looked at). *)
Theorem FromReader_cases (r : list Z) (bo : ByteOrder) :
  Forall is_byte r ->
  ((length r < 4)%nat ->
   FromReader r bo = inl (CantReadBits (short_read r))) /\
  ((4 <= length r < 8)%nat ->
   FromReader r bo = inl (CantReadWords (short_read (drop 4 r)))) /\
  ((8 <= length r < 8 + 8 * Z.to_nat (Uint32 bo (take 4 (drop 4 r))))%nat ->
   FromReader r bo =
     inl (CantReadWord (Z.of_nat ((length r - 8) / 8) + 1)
            (short_read (drop (8 + 8 * ((length r - 8) / 8)) r)))) /\
  ((8 + 8 * Z.to_nat (Uint32 bo (take 4 (drop 4 r))) <= length r
    < 12 + 8 * Z.to_nat (Uint32 bo (take 4 (drop 4 r))))%nat ->
   FromReader r bo =
     inl (CantReadLastrlw
            (short_read
               (drop (8 + 8 * Z.to_nat (Uint32 bo (take 4 (drop 4 r)))) r)))) /\
  ((12 + 8 * Z.to_nat (Uint32 bo (take 4 (drop 4 r))) <= length r)%nat ->
   exists b, FromReader r bo = inr b /\
     n b = Uint32 bo (take 4 r) /\
     len (w b) = Uint32 bo (take 4 (drop 4 r)) /\
     lastrlw b = Uint32 bo (take 4 (drop (8 + 8 * length (w b)) r)) /\
     0 <= n b < 2 ^ 32 /\ 0 <= lastrlw b < 2 ^ 32 /\
     Forall is_uint64 (w b)).
Proof.
  intros Hr. set (cnt := Z.to_nat (Uint32 bo (take 4 (drop 4 r)))).
  split; [|split; [|split; [|split]]].
  - intros Hl. unfold FromReader, readUint32.
    by rewrite ReadAtLeast_short.
  - intros Hl. unfold FromReader, readUint32.
    rewrite ReadAtLeast_ok by lia.
    by rewrite ReadAtLeast_short by (rewrite length_drop; lia).
  - intros Hl. unfold FromReader, readUint32.
    rewrite ReadAtLeast_ok by lia.
    rewrite ReadAtLeast_ok by (rewrite length_drop; lia).
    fold cnt. rewrite drop_drop. change (4 + 4)%nat with 8%nat.
    destruct (readWords_spec bo cnt (drop 8 r) 0 (Forall_bytes_drop 8 r Hr))
      as [_ Hko].
    rewrite Hko by (rewrite length_drop; lia).
    rewrite length_drop, drop_drop. reflexivity.
  - intros Hl. unfold FromReader, readUint32.
    rewrite ReadAtLeast_ok by lia.
    rewrite ReadAtLeast_ok by (rewrite length_drop; lia).
    fold cnt. rewrite drop_drop. change (4 + 4)%nat with 8%nat.
    destruct (readWords_spec bo cnt (drop 8 r) 0 (Forall_bytes_drop 8 r Hr))
      as [Hok _].
    destruct Hok as (ws & -> & _); [rewrite length_drop; lia|].
    rewrite ReadAtLeast_short by (rewrite !length_drop; lia).
    by rewrite drop_drop.
  - intros Hl. destruct (FromReader_ok r bo Hr Hl) as (ws & -> & Hlen & Hws & _).
    fold cnt in Hlen.
    destruct (Uint32_take r bo Hr) as [Hb _]; [lia|].
    destruct (Uint32_take (drop 4 r) bo) as [Hc _];
      [by apply Forall_bytes_drop|rewrite length_drop; lia|].
    destruct (Uint32_take (drop (8 + 8 * length ws) r) bo) as [Hlast _];
      [by apply Forall_bytes_drop|rewrite length_drop; lia|].
    eexists. split; [reflexivity|]. cbn [n w lastrlw].
    split; [reflexivity|]. split; [unfold len, cnt in *; lia|].
    split; [reflexivity|]. auto.
Qed.

Lemma FromReader_cases_witness :
  FromReader [0; 0; 0; 1; 0; 0] BigEndian
  = inl (CantReadWords (short_read (drop 4 [0; 0; 0; 1; 0; 0]))).
Proof.
  refine (proj1 (proj2 (FromReader_cases [0; 0; 0; 1; 0; 0] BigEndian _)) _).
  - repeat constructor; vm_compute; congruence.
  - cbn [length]. lia.
Defined.

(** Decoding and encoding again: when [FromBytes] accepts a stream of
    bytes, [Write] of the bitmap it returns reproduces the bytes it read,
    the first [12 + 8 * len(w)] of the stream. *)
Theorem FromBytes_then_Write (r : list Z) (bo : ByteOrder) (b : Bitmap) :
  Forall is_byte r -> FromBytes r bo = inr b ->
  (Bitmap_Write b [] bo).1.1 = take (12 + 8 * length (w b)) r.
Proof.
  intros Hr Hb. unfold FromBytes in Hb.
  set (cnt := Z.to_nat (Uint32 bo (take 4 (drop 4 r)))).
  destruct (Nat.le_gt_cases (12 + 8 * cnt) (length r)) as [Hl|Hl].
  2:{ exfalso. destruct (FromReader_short r bo Hr) as [e He]; [done|].
      rewrite He in Hb. discriminate. }
  destruct (FromReader_ok r bo Hr Hl) as (ws & E & Hlen & Hws & Hcat).
  fold cnt in Hlen. rewrite E in Hb.
  pose proof (f_equal (fun x => match x with inr y => y | inl _ => b end) Hb)
    as Eb. cbv beta iota in Eb. subst b. clear Hb.
  rewrite Bitmap_Write_eq.
  cbv beta iota delta [fst n w lastrlw Bitmap_Bits]. rewrite app_nil_l.
  destruct (Uint32_take r bo Hr) as [Hb1 Hb2]; [lia|].
  destruct (Uint32_take (drop 4 r) bo) as [Hc1 Hc2];
    [by apply Forall_bytes_drop|rewrite length_drop; lia|].
  destruct (Uint32_take (drop (8 + 8 * length ws) r) bo) as [Hl1 Hl2];
    [by apply Forall_bytes_drop|rewrite length_drop; lia|].
  rewrite (uint32_small (Uint32 bo (take 4 r))) by lia.
  replace (len ws) with (Uint32 bo (take 4 (drop 4 r)))
    by (unfold len, cnt in *; lia).
  rewrite !uint32_small by lia.
  rewrite Hb2, Hc2, Hl2, Hcat.
  replace (12 + 8 * length ws)%nat with (4 + (4 + (8 * length ws + 4)))%nat
    by lia.
  rewrite (take_split 4), (take_split 4), (take_split (8 * length ws)).
  rewrite !drop_drop. reflexivity.
Qed.

Lemma FromBytes_then_Write_witness :
  (Bitmap_Write {| n := 0; w := []; lastrlw := 0 |} [] BigEndian).1.1
  = take (12 + 8 * 0) (replicate 12 0).
Proof.
  apply (FromBytes_then_Write (replicate 12 0) BigEndian
           {| n := 0; w := []; lastrlw := 0 |}).
  - repeat constructor; vm_compute; congruence.
  - vm_compute. reflexivity.
Defined.

(** ** The scan of [Get] *)

Lemma Get_blocks_fuel fuel : forall ws pos i acc,
  0 <= i -> (1 <= fuel)%nat -> len ws - i < Z.of_nat fuel ->
  exists res, Get_blocks fuel ws pos i acc = Some res.
Proof.
  induction fuel as [|fuel IH]; intros ws pos i acc Hi H1 Hf; [lia|].
  cbn [Get_blocks]. destruct (Z.ltb_spec i (len ws)); [|eauto].
  destruct (index ws i) as [word|]; [|eauto].
  pose proof (rlw_l_range word).
  destruct (pos <? add64 acc (mul64 (rlw_k word) 64)); [eauto|].
  destruct ((rlw_l word >? 0) &&
            (pos <? add64 (add64 acc (mul64 (rlw_k word) 64))
                      (mul64 (rlw_l word) 64))).
  - destruct (Get_literals ws pos i (Z.to_nat (rlw_l word)) 1
                (add64 acc (mul64 (rlw_k word) 64))); eauto.
    apply IH; lia.
  - apply IH; lia.
Qed.

(** The scan of [Get] always ends: every round of the outer loop moves the
    word index forward, so no more rounds than there are words are run. *)
Theorem Get_terminates (b : Bitmap) (pos : Z) :
  exists res, Bitmap_Get b pos = Some res.
Proof.
  unfold Bitmap_Get. destruct (pos >=? n b); [eauto|].
  apply Get_blocks_fuel; [lia|lia|]. unfold len. lia.
Qed.

(** ** The first [Set] *)

Lemma setbit_zero idx : 0 <= idx < 64 -> setbit 0 idx = 2 ^ (63 - idx).
Proof.
  intros Hi. unfold setbit. rewrite Z.lor_0_l.
  replace (uint64 (uint64 (64 - idx) - 1)) with (63 - idx) by (unfold uint64; zdm).
  rewrite shl64_small; [lia|lia|].
  split; [lia|]. rewrite Z.mul_1_l. apply Z.pow_lt_mono_r; lia.
Qed.

Lemma pow2_land_eqb a c :
  0 <= a -> 0 <= c -> (Z.land (2 ^ a) (2 ^ c) =? 0) = negb (a =? c).
Proof.
  intros Ha Hc. destruct (Z.eqb_spec a c) as [->|Hne]; cbn [negb].
  - rewrite Z.land_diag. apply Z.eqb_neq. pose proof (Z.pow_pos_nonneg 2 c). lia.
  - apply Z.eqb_eq. apply Z.bits_inj'; intros i Hi.
    rewrite Z.land_spec, !Z.pow2_bits_eqb, Z.bits_0 by lia.
    destruct (Z.eqb_spec a i), (Z.eqb_spec c i); try done. lia.
Qed.

Lemma Set_first p :
  0 <= p < 64 * 2 ^ 32 ->
  Bitmap_Set New p =
  Done ({| n := p + 1;
           w := [newRlw false (p / 64) 1; 2 ^ (63 - p mod 64)];
           lastrlw := 0 |}, None).
Proof.
  intros Hp.
  assert (Hidx : uint64 (rem64 p 64) = p mod 64).
  { unfold rem64. rewrite Z.rem_mod_nonneg by lia. apply uint64_small. zdm. }
  assert (Hk : div64 (sub64 p (Bitmap_size New)) 64 = p / 64).
  { change (Bitmap_size New) with 0. unfold sub64, div64.
    rewrite Z.sub_0_r, (int64_small p) by (unfold is_int64; lia).
    rewrite Z.quot_div_nonneg by lia. apply int64_small. unfold is_int64. zdm. }
  assert (Hn : add64 p 1 = p + 1) by (apply int64_small; unfold is_int64; lia).
  change (newRlw false 0 0) with 0 in *.
  destruct (Z.eq_dec (p / 64) 0) as [E|E].
  - rewrite (Set_literal New p (newRlw false 0 0)); rewrite ?Hk; try done.
    + rewrite Hidx, Hn, setbit_zero by zdm.
      change (primed New) with {| n := 0; w := [newRlw false 0 0]; lastrlw := 0 |}.
      cbn [w lastrlw]. change (Z.to_nat 0) with 0%nat. cbn [insert list_insert app].
      rewrite rlw_l_newRlw, (uint32_small (0 + 1)), rlw_setl_newRlw by lia.
      rewrite E. reflexivity.
    + change (n New) with 0. lia.
    + change (Bitmap_size New) with 0. lia.
  - assert (0 < p / 64 < 2 ^ 32) by zdm.
    rewrite (Set_gap New p (newRlw false 0 0)); rewrite ?Hk; try done.
    + rewrite Hidx, Hn, setbit_zero by zdm.
      change (primed New) with {| n := 0; w := [newRlw false 0 0]; lastrlw := 0 |}.
      cbn [w lastrlw]. change (Z.to_nat 0) with 0%nat. cbn [insert list_insert app].
      rewrite rlw_k_newRlw by lia.
      rewrite (uint32_small (p / 64)), (uint32_small (0 + p / 64)) by lia.
      rewrite Z.add_0_l, rlw_setk_newRlw by lia.
      rewrite rlw_l_newRlw, (uint32_small (0 + 1)), rlw_setl_newRlw by lia.
      reflexivity.
    + change (n New) with 0. lia.
    + change (Bitmap_size New) with 0. lia.
    + lia.
    + rewrite rlw_k_newRlw by lia. unfold add64, MaxUint32.
      rewrite int64_small by (unfold is_int64; lia). lia.
Qed.

(** After a single [Set] on the empty bitmap, at a position below 2^38,
    [Get] returns true at that position and false at every other one. *)
Theorem Get_after_first_Set (p q : Z) :
  0 <= p < 64 * 2 ^ 32 ->
  exists b, Bitmap_Set New p = Done (b, None) /\
            Bitmap_Get b q = Some (Done (q =? p)).
Proof.
  intros Hp. eexists. split; [by apply Set_first|].
  unfold Bitmap_Get. cbn [n w length].
  destruct (Z.geb_spec q (p + 1)).
  { destruct (Z.eqb_spec q p); [lia|done]. }
  assert (Hk : 0 <= p / 64 < 2 ^ 32) by zdm.
  cbn [Get_blocks]. change (0 <? len _) with true. cbv iota.
  change (index (?x :: ?l) 0) with (Done x). cbv iota.
  rewrite rlw_k_newRlw, rlw_l_newRlw, rlw_b_newRlw by lia.
  unfold mul64, add64.
  rewrite (int64_small (p / 64 * 64)) by (unfold is_int64; lia).
  rewrite (int64_small (0 + _)) by (unfold is_int64; lia).
  rewrite (int64_small (1 * 64)) by (unfold is_int64; lia).
  rewrite (int64_small (0 + p / 64 * 64 + 1 * 64)) by (unfold is_int64; lia).
  destruct (Z.ltb_spec q (0 + p / 64 * 64)) as [Hq|Hq].
  { destruct (Z.eqb_spec q p); [zdm|done]. }
  change (1 >? 0) with true. cbn [andb].
  destruct (Z.ltb_spec q (0 + p / 64 * 64 + 1 * 64)) as [_|Hq']; [|zdm].
  change (Z.to_nat 1) with 1%nat. cbn [Get_literals].
  unfold add64, sub64.
  rewrite (int64_small (0 + p / 64 * 64 + 64)) by (unfold is_int64; lia).
  destruct (Z.ltb_spec q (0 + p / 64 * 64 + 64)) as [_|Hq']; [|zdm].
  change (index [?x; ?y] (0 + 1)) with (Done y). cbv iota.
  rewrite (int64_small (q - _)) by (unfold is_int64; lia).
  replace (uint64 (63 - uint64 (q - (0 + p / 64 * 64))))
    with (63 - (q - p / 64 * 64)) by (unfold uint64; zdm).
  assert (Hs : 0 <= 63 - (q - p / 64 * 64) < 64) by zdm.
  rewrite shl64_small, Z.mul_1_l;
    [|lia|rewrite Z.mul_1_l; split;
          [apply Z.pow_nonneg; lia|apply Z.pow_lt_mono_r; lia]].
  rewrite pow2_land_eqb by zdm. rewrite negb_involutive.
  do 2 f_equal.
  destruct (Z.eqb_spec (63 - p mod 64) (63 - (q - p / 64 * 64))),
    (Z.eqb_spec q p); try done; zdm.
Qed.

Lemma Get_after_first_Set_witness :
  exists b, Bitmap_Set New 378 = Done (b, None) /\
            Bitmap_Get b 378 = Some (Done (378 =? 378)).
Proof. apply (Get_after_first_Set 378 378). lia. Defined.

(** ** The remaining paths of [Set] *)

(** A [Set] inside the current capacity that does not fill the last word
    only ORs the bit into that word: the other words, their number and the
    active index stay. *)
Theorem Set_inside_capacity (b : Bitmap) (pos lit : Z) :
  0 <= lastrlw b < len (w b) ->
  index (w b) (len (w b) - 1) = Done lit ->
  n b <= pos < Bitmap_size b ->
  setbit lit (uint64 (rem64 pos 64)) <> allones ->
  Bitmap_Set b pos =
    Done ({| n := add64 pos 1;
             w := <[Z.to_nat (len (w b) - 1) :=
                      setbit lit (uint64 (rem64 pos 64))]> (w b);
             lastrlw := lastrlw b |}, None).
Proof.
  intros Hl Hlit Hp Hne.
  destruct (index_in_range (w b) (lastrlw b) Hl) as [r Hr].
  assert (Hpr : primed b = b) by (apply primed_id; lia).
  rewrite (Set_inside b pos r lit); rewrite ?Hpr; try done; lia.
Qed.

Lemma Set_inside_capacity_witness :
  Bitmap_Set {| n := 1; w := [newRlw false 0 1; 2 ^ 63]; lastrlw := 0 |} 5 =
    Done ({| n := add64 5 1;
             w := <[Z.to_nat (2 - 1) := setbit (2 ^ 63) (uint64 (rem64 5 64))]>
                    [newRlw false 0 1; 2 ^ 63];
             lastrlw := 0 |}, None).
Proof.
  apply (Set_inside_capacity
           {| n := 1; w := [newRlw false 0 1; 2 ^ 63]; lastrlw := 0 |} 5 (2 ^ 63)).
  - vm_compute. split; [discriminate|reflexivity].
  - reflexivity.
  - vm_compute. split; [discriminate|reflexivity].
  - vm_compute. discriminate.
Defined.

(** A [Set] in the chunk right after the current capacity, when the active
    RLW counts fewer than 2^31-1 literals, raises that count by one, keeps
    the repeated bit and the run count, and appends the one-bit literal. *)
Theorem Set_next_chunk (b : Bitmap) (pos r : Z) :
  0 <= lastrlw b -> index (w b) (lastrlw b) = Done r -> is_uint64 r ->
  n b <= pos -> Bitmap_size b <= pos ->
  div64 (sub64 pos (Bitmap_size b)) 64 = 0 ->
  rlw_l r < maxUint31 ->
  exists r',
    Bitmap_Set b pos =
      Done ({| n := add64 pos 1;
               w := <[Z.to_nat (lastrlw b) := r']> (w b)
                    ++ [setbit 0 (uint64 (rem64 pos 64))];
               lastrlw := lastrlw b |}, None) /\
    rlw_b r' = rlw_b r /\ rlw_k r' = rlw_k r /\ rlw_l r' = rlw_l r + 1.
Proof.
  intros Hl Hr Hur Hn Hp Hk Hlt. unfold is_uint64 in Hur.
  rewrite maxUint31_eq in Hlt. pose proof (rlw_l_range r) as Hlr.
  assert (Hpr : primed b = b) by (apply primed_id; lia).
  exists (rlw_setl r (rlw_l r + 1)). split.
  - rewrite (Set_literal b pos r); rewrite ?Hpr; try done.
    + by rewrite uint32_small by lia.
    + rewrite uint32_small, maxUint31_eq by lia. lia.
  - rewrite rlw_b_setl, rlw_k_setl, rlw_l_setl by lia. done.
Qed.

Lemma Set_next_chunk_witness :
  exists r',
    Bitmap_Set {| n := 64; w := [newRlw true 1 0]; lastrlw := 0 |} 70 =
      Done ({| n := add64 70 1;
               w := <[Z.to_nat 0 := r']> [newRlw true 1 0]
                    ++ [setbit 0 (uint64 (rem64 70 64))];
               lastrlw := 0 |}, None) /\
    rlw_b r' = rlw_b (newRlw true 1 0) /\
    rlw_k r' = rlw_k (newRlw true 1 0) /\
    rlw_l r' = rlw_l (newRlw true 1 0) + 1.
Proof.
  apply (Set_next_chunk {| n := 64; w := [newRlw true 1 0]; lastrlw := 0 |}
           70 (newRlw true 1 0)).
  - vm_compute. discriminate.
  - reflexivity.
  - vm_compute. split; [discriminate|reflexivity].
  - vm_compute. discriminate.
  - vm_compute. discriminate.
  - vm_compute. reflexivity.
  - vm_compute. reflexivity.
Defined.

(** A [Set] beyond a gap of [k > 0] empty chunks, when the run count plus
    [k] fits 32 bits and the active RLW counts fewer than 2^31-1 literals,
    adds [k] to the run count of the active RLW and one to its literal
    count, whatever its repeated bit and its literal count are, and appends
    the one-bit literal. *)
Theorem Set_after_gap (b : Bitmap) (pos r : Z) :
  0 <= lastrlw b -> index (w b) (lastrlw b) = Done r -> is_uint64 r ->
  n b <= pos -> Bitmap_size b <= pos ->
  0 < div64 (sub64 pos (Bitmap_size b)) 64 ->
  rlw_k r + div64 (sub64 pos (Bitmap_size b)) 64 <= MaxUint32 ->
  rlw_l r < maxUint31 ->
  exists r',
    Bitmap_Set b pos =
      Done ({| n := add64 pos 1;
               w := <[Z.to_nat (lastrlw b) := r']> (w b)
                    ++ [setbit 0 (uint64 (rem64 pos 64))];
               lastrlw := lastrlw b |}, None) /\
    rlw_b r' = rlw_b r /\
    rlw_k r' = rlw_k r + div64 (sub64 pos (Bitmap_size b)) 64 /\
    rlw_l r' = rlw_l r + 1.
Proof.
  intros Hl Hr Hur Hn Hp Hk Hfit Hlt. unfold is_uint64 in Hur.
  rewrite maxUint31_eq in Hlt. unfold MaxUint32 in Hfit.
  pose proof (rlw_l_range r) as Hlr. pose proof (rlw_k_range r) as Hkr.
  set (k := div64 (sub64 pos (Bitmap_size b)) 64) in *.
  assert (Hpr : primed b = b) by (apply primed_id; lia).
  assert (Hs : 0 <= rlw_setk r (rlw_k r + k) < 2 ^ 64)
    by (apply rlw_setk_range; lia).
  exists (rlw_setl (rlw_setk r (rlw_k r + k)) (rlw_l r + 1)). split.
  - rewrite (Set_gap b pos r); rewrite ?Hpr; try done.
    + fold k. rewrite (uint32_small k), (uint32_small (rlw_k r + k)) by lia.
      rewrite rlw_l_setk, uint32_small by lia. reflexivity.
    + fold k. unfold add64, MaxUint32.
      rewrite int64_small by (unfold is_int64; lia). lia.
  - rewrite rlw_b_setl, rlw_k_setl, rlw_l_setl, rlw_b_setk, rlw_k_setk by lia.
    done.
Qed.

Lemma Set_after_gap_witness :
  exists r',
    Bitmap_Set {| n := 1; w := [newRlw false 0 1; 2 ^ 63]; lastrlw := 0 |} 200 =
      Done ({| n := add64 200 1;
               w := <[Z.to_nat 0 := r']> [newRlw false 0 1; 2 ^ 63]
                    ++ [setbit 0 (uint64 (rem64 200 64))];
               lastrlw := 0 |}, None) /\
    rlw_b r' = rlw_b (newRlw false 0 1) /\
    rlw_k r' = rlw_k (newRlw false 0 1)
               + div64 (sub64 200 (Bitmap_size
                   {| n := 1; w := [newRlw false 0 1; 2 ^ 63]; lastrlw := 0 |})) 64 /\
    rlw_l r' = rlw_l (newRlw false 0 1) + 1.
Proof.
  apply (Set_after_gap
           {| n := 1; w := [newRlw false 0 1; 2 ^ 63]; lastrlw := 0 |}
           200 (newRlw false 0 1)).
  - vm_compute. discriminate.
  - reflexivity.
  - vm_compute. split; [discriminate|reflexivity].
  - vm_compute. discriminate.
  - vm_compute. discriminate.
  - vm_compute. reflexivity.
  - vm_compute. discriminate.
  - vm_compute. reflexivity.
Defined.

(** A [Set] in the chunk right after the current capacity, when the active
    RLW already counts 2^31-1 literals, leaves all the words as they are and
    appends a new active RLW (repeated bit 0, run count 0, one literal)
    followed by the one-bit literal. *)
Theorem Set_literals_full (b : Bitmap) (pos r : Z) :
  0 <= lastrlw b -> index (w b) (lastrlw b) = Done r ->
  n b <= pos -> Bitmap_size b <= pos ->
  div64 (sub64 pos (Bitmap_size b)) 64 = 0 ->
  rlw_l r = maxUint31 ->
  Bitmap_Set b pos =
    Done ({| n := add64 pos 1;
             w := w b ++ [newRlw false 0 1; setbit 0 (uint64 (rem64 pos 64))];
             lastrlw := len (w b) |}, None).
Proof.
  intros Hl Hr Hn Hp Hk Hfull.
  assert (Hpr : primed b = b) by (apply primed_id; lia).
  rewrite (Set_new_block b pos r); rewrite ?Hpr; try done.
  - rewrite Hk. change (uint32 (sub64 (sub64 0 MaxUint32) 1)) with 0.
    apply index_inv in Hr as [_ Hr].
    rewrite list_insert_id by (apply lookup_app_l_Some; exact Hr).
    by rewrite <- app_assoc.
  - left. split; [done|]. rewrite Hfull. vm_compute. reflexivity.
Qed.

Lemma Set_literals_full_witness :
  Bitmap_Set {| n := 64; w := [newRlw false 0 maxUint31]; lastrlw := 0 |} 64 =
    Done ({| n := add64 64 1;
             w := [newRlw false 0 maxUint31]
                  ++ [newRlw false 0 1; setbit 0 (uint64 (rem64 64 64))];
             lastrlw := len [newRlw false 0 maxUint31] |}, None).
Proof.
  apply (Set_literals_full
           {| n := 64; w := [newRlw false 0 maxUint31]; lastrlw := 0 |}
           64 (newRlw false 0 maxUint31)).
  - vm_compute. discriminate.
  - reflexivity.
  - vm_compute. discriminate.
  - vm_compute. discriminate.
  - vm_compute. reflexivity.
  - vm_compute. reflexivity.
Defined.

(** ** Keeping the block structure *)

Lemma path_le ws i j : path ws i j -> i <= j.
Proof.
  induction 1 as [|i r j Hr _ IH]; [lia|]. pose proof (rlw_l_range r). lia.
Qed.

Lemma path_trans ws i j k : path ws i j -> path ws j k -> path ws i k.
Proof. induction 1; [done|]. intros. eapply path_next; eauto. Qed.

Lemma path_agree ws ws' i j :
  path ws i j -> (forall x, i <= x < j -> index ws' x = index ws x) ->
  path ws' i j.
Proof.
  induction 1 as [|i r j Hr Hp IH]; intros Hag; [constructor|].
  pose proof (rlw_l_range r). apply path_le in Hp as Hle.
  eapply path_next.
  - rewrite Hag by lia. exact Hr.
  - apply IH. intros x Hx. apply Hag. lia.
Qed.

Lemma walk_path fuel ws : forall i j,
  walk fuel ws i = Some j ->
  path ws i j /\ exists r, index ws j = Done r /\ j + 1 + rlw_l r = len ws.
Proof.
  induction fuel as [|fuel IH]; intros i j; cbn [walk]; [discriminate|].
  destruct (index ws i) as [r|] eqn:Hr; [|discriminate].
  destruct (Z.eqb_spec (i + 1 + rlw_l r) (len ws)) as [E|E].
  { intros [= <-]. split; [constructor|eauto]. }
  destruct (i + 1 + rlw_l r <? len ws); [|discriminate].
  intros Hw. apply IH in Hw as [Hp Hlast]. split; [|done].
  by eapply path_next.
Qed.

Lemma path_walk ws i j :
  path ws i j ->
  forall r fuel, index ws j = Done r -> j + 1 + rlw_l r = len ws ->
    j - i < Z.of_nat fuel -> walk fuel ws i = Some j.
Proof.
  induction 1 as [i|i r' j Hr' Hp IH]; intros r fuel Hr Hend Hf.
  - destruct fuel as [|fuel]; [lia|]. cbn [walk]. rewrite Hr.
    destruct (Z.eqb_spec (i + 1 + rlw_l r) (len ws)); [done|lia].
  - destruct fuel as [|fuel]; [apply path_le in Hp; pose proof (rlw_l_range r'); lia|].
    cbn [walk]. rewrite Hr'. apply path_le in Hp as Hle.
    pose proof (rlw_l_range r'). pose proof (rlw_l_range r).
    destruct (Z.eqb_spec (i + 1 + rlw_l r') (len ws)); [lia|].
    destruct (Z.ltb_spec (i + 1 + rlw_l r') (len ws)); [|lia].
    eapply IH; eauto. lia.
Qed.

Lemma block_structure_structured b :
  w b <> [] -> block_structure b <-> structured b.
Proof.
  intros Hne. unfold block_structure, structured.
  destruct (w b) as [|x ws] eqn:Ew; [done|]. rewrite <- Ew. split.
  - apply walk_path.
  - intros [Hp (r & Hr & Hend)]. eapply path_walk; eauto.
    apply index_inv in Hr. unfold len in *. lia.
Qed.

Lemma index_insert_eq ws i x :
  0 <= i < len ws -> index (<[Z.to_nat i := x]> ws) i = Done x.
Proof.
  intros Hi. apply index_Done; [lia|].
  apply list_lookup_insert_eq. unfold len in Hi. lia.
Qed.

Lemma index_insert_ne ws i j x :
  0 <= i -> i <> j -> index (<[Z.to_nat i := x]> ws) j = index ws j.
Proof.
  intros Hi Hne. unfold index. destruct (Z.ltb_spec j 0); [done|].
  rewrite list_lookup_insert_ne by lia. done.
Qed.

Lemma index_app_l ws t j : j < len ws -> index (ws ++ t) j = index ws j.
Proof.
  intros Hj. unfold index. destruct (Z.ltb_spec j 0); [done|].
  rewrite lookup_app_l by (unfold len in Hj; lia). done.
Qed.

Lemma index_app_len ws x t : index (ws ++ x :: t) (len ws) = Done x.
Proof.
  apply index_Done; [unfold len; lia|]. unfold len. rewrite Nat2Z.id.
  by rewrite list_lookup_middle.
Qed.

Lemma index_take ws k j :
  j < k -> index (take (Z.to_nat k) ws) j = index ws j.
Proof.
  intros Hj. unfold index. destruct (Z.ltb_spec j 0); [done|].
  rewrite lookup_take_lt by lia. done.
Qed.

Lemma len_take (ws : list Z) k :
  0 <= k <= len ws -> len (take (Z.to_nat k) ws) = k.
Proof. unfold len. intros Hk. rewrite length_take. lia. Qed.

Lemma structured_primed b :
  well_formed b -> block_structure b -> structured (primed b).
Proof.
  intros Hwf Hbs. destruct (wf_lastrlw b Hwf) as [->|Hl].
  - split; [constructor|]. exists (newRlw false 0 0). split; reflexivity.
  - rewrite primed_id by lia. apply block_structure_structured; [|done].
    intros E. rewrite E in Hl. unfold len in Hl. cbn [length] in Hl. lia.
Qed.

Ltac idx :=
  repeat first
    [ rewrite index_insert_eq by lens
    | rewrite index_app_len
    | rewrite index_take by lens
    | rewrite index_app_l by lens
    | rewrite index_insert_ne by lens ].

(** A successful [Set] keeps the block structure, as long as the active RLW
    counts fewer than 2^31-1 literals. *)
Lemma Set_structured b pos b' :
  well_formed b -> block_structure b ->
  (forall r, index (w (primed b)) (lastrlw (primed b)) = Done r ->
             rlw_l r < maxUint31) ->
  Bitmap_Set b pos = Done (b', None) -> structured b'.
Proof.
  intros Hwf Hbs Hroom. pose proof (wf_n b Hwf) as Hn.
  pose proof (structured_primed b Hwf Hbs) as [Hpath (r & Hr & Hend)].
  apply well_formed_primed in Hwf as (Hws & Hl & Hpart).
  specialize (Hroom r Hr). rewrite maxUint31_eq in Hroom.
  assert (Hur : 0 <= r < 2 ^ 64) by (by eapply index_uint64).
  pose proof (rlw_l_range r) as Hlr.
  unfold Bitmap_Set. destruct (Z.gtb_spec (n b) pos) as [|Hpos]; [discriminate|].
  fold (primed b). cbv zeta. rewrite Hr. cbn [mbind outcome_bind].
  rewrite size_primed.
  remember (w (primed b)) as ws eqn:Ews.
  remember (lastrlw (primed b)) as L eqn:EL.
  destruct (Z.gtb_spec (Bitmap_size b) pos) as [Hin|Hout].
  - assert (Hrem : rem64 (n b) 64 <> 0).
    { intros E. rewrite (size_no_partial b Hn E) in Hin. lia. }
    destruct (Hpart Hrem) as (Hlt & lit & Hlit & _).
    rewrite Hlit. cbn [mbind outcome_bind].
    destruct (Z.eqb_spec (setbit lit (uint64 (rem64 pos 64))) allones) as [Hall|Hne].
    + destruct (rlw_b r && (rlw_l r =? 1) && (rlw_k r <? MaxUint32)) eqn:Hc;
        intros [= <-]; unfold structured; cbn [w lastrlw].
      * apply andb_prop in Hc as [Hc _]. apply andb_prop in Hc as [_ Hl1].
        apply Z.eqb_eq in Hl1. split.
        -- apply (path_agree ws); [done|]. intros x Hx. by idx.
        -- eexists. split; [by idx|].
           rewrite rlw_l_setl by (try apply rlw_setk_range;
                                  try apply Z.mod_pos_bound; lia).
           rewrite len_take; [lia|]. rewrite !len_insert. lia.
      * assert (E1 : uint32 (rlw_l r - 1) = rlw_l r - 1)
          by (apply uint32_small; lia).
        split.
        -- eapply path_trans.
           ++ apply (path_agree ws); [exact Hpath|]. intros x Hx. by idx.
           ++ eapply path_next; [by idx|].
              rewrite E1, rlw_l_setl by lia.
              replace (L + 1 + (rlw_l r - 1)) with (len ws - 1) by lia.
              constructor.
        -- exists (newRlw true 1 0). split; [by idx|].
           rewrite rlw_l_newRlw by lia. rewrite !len_insert. lia.
    + intros [= <-]; unfold structured; cbn [w lastrlw]. split.
      * apply (path_agree ws); [done|]. intros x Hx. by idx.
      * exists r. split; [by idx|]. rewrite len_insert. lia.
  - destruct ((div64 (sub64 pos (Bitmap_size b)) 64 =? 0) &&
              (uint32 (rlw_l r + 1) <=? maxUint31)).
    { intros [= <-]; unfold structured; cbn [w lastrlw]. split.
      - apply (path_agree ws); [done|]. intros x Hx. by idx.
      - eexists. split; [by idx|].
        rewrite uint32_small, rlw_l_setl by lia. lens. }
    destruct ((div64 (sub64 pos (Bitmap_size b)) 64 >? 0) &&
              (add64 (rlw_k r) (div64 (sub64 pos (Bitmap_size b)) 64)
               <=? MaxUint32)).
    { intros [= <-]; unfold structured; cbn [w lastrlw]. split.
      - apply (path_agree ws); [done|]. intros x Hx. by idx.
      - eexists. split; [by idx|].
        match goal with |- context [rlw_setk r ?k] =>
          assert (Hk : 0 <= k < 2 ^ 32) by (apply Z.mod_pos_bound; lia);
          assert (Hs : 0 <= rlw_setk r k < 2 ^ 64) by (by apply rlw_setk_range);
          rewrite (rlw_l_setk r k) by done
        end.
        rewrite (uint32_small (rlw_l r + 1)), rlw_l_setl by lia. lens. }
    intros [= <-]; unfold structured; cbn [w lastrlw]. split.
    + rewrite len_insert, len_app.
      replace (len ws + len [_] - 1) with (len ws) by (unfold len; cbn [length]; lia).
      eapply path_trans.
      * apply (path_agree ws); [exact Hpath|]. intros x Hx. by idx.
      * eapply path_next; [by idx|]. rewrite Hend. constructor.
    + rewrite len_insert, len_app.
      replace (len ws + len [_] - 1) with (len ws) by (unfold len; cbn [length]; lia).
      eexists. split.
      * rewrite index_app_l by lens. rewrite index_insert_ne by lia.
        apply index_app_len.
      * rewrite rlw_l_newRlw by (try apply Z.mod_pos_bound; lia). lens.
Qed.

Lemma len_primed b : len (w (primed b)) <= len (w b) + 1.
Proof.
  unfold primed. destruct (lastrlw b <? 0); cbn [w]; [rewrite len_app|];
    unfold len; cbn [length]; lia.
Qed.

Lemma Set_len b pos b' :
  Bitmap_Set b pos = Done (b', None) -> len (w b') <= len (w b) + 3.
Proof.
  pose proof (len_primed b) as Hp.
  unfold Bitmap_Set. destruct (Z.gtb_spec (n b) pos); [discriminate|].
  fold (primed b). cbv zeta.
  destruct (index (w (primed b)) (lastrlw (primed b))) as [r|];
    cbn [mbind outcome_bind]; [|discriminate].
  destruct (Bitmap_size (primed b) >? pos).
  - destruct (index (w (primed b)) (len (w (primed b)) - 1)) as [lit|];
      cbn [mbind outcome_bind]; [|discriminate].
    repeat match goal with |- context [if ?c then _ else _] => destruct c end;
      intros [= <-]; cbn [w]; rewrite ?len_insert; try lia.
    unfold len in *. rewrite length_take, !length_insert. lia.
  - repeat match goal with |- context [if ?c then _ else _] => destruct c end;
      intros [= <-]; cbn [w]; lens.
Qed.

Lemma structured_room b :
  structured (primed b) -> len (w b) < 2 ^ 31 - 1 ->
  forall r, index (w (primed b)) (lastrlw (primed b)) = Done r ->
            rlw_l r < maxUint31.
Proof.
  intros [Hp (r' & Hr' & Hend)] Hlen r Hr. rewrite Hr in Hr'. injection Hr' as <-.
  apply path_le in Hp. pose proof (len_primed b). rewrite maxUint31_eq. lia.
Qed.

Lemma structured_block_structure b : structured b -> block_structure b.
Proof.
  intros Hs. apply block_structure_structured; [|done].
  destruct Hs as [_ (r & Hr & _)]. apply index_inv in Hr as [Hr _].
  intros E. rewrite E in Hr. unfold len in Hr. cbn [length] in Hr. lia.
Qed.

Lemma sets_structured ps : forall b b',
  well_formed b -> block_structure b ->
  len (w b) + 3 * Z.of_nat (length ps) < 2 ^ 31 - 1 ->
  sets b ps = Some b' -> block_structure b'.
Proof.
  induction ps as [|p ps IH]; intros b b' Hwf Hbs Hlen; cbn [sets].
  { by intros [= <-]. }
  destruct (Bitmap_Set b p) as [[b1 [e|]]|] eqn:Hset; try discriminate.
  cbn [length] in Hlen. pose proof (Set_len b p b1 Hset).
  apply IH; [by eapply Set_well_formed| |lia].
  apply structured_block_structure.
  eapply Set_structured; eauto.
  apply structured_room; [by apply structured_primed|lia].
Qed.

(** C4 holds short of the literal count overflow: every bitmap built from
    the empty one by fewer than 2^29 successful [Set] calls has the block
    structure. *)
Theorem built_block_structure (ps : list Z) (b : Bitmap) :
  Z.of_nat (length ps) < 2 ^ 29 -> sets New ps = Some b -> block_structure b.
Proof.
  intros Hlen Hb.
  apply (sets_structured ps New b);
    [apply New_well_formed|reflexivity| |exact Hb].
  change (len (w New)) with 0. lia.
Qed.

Lemma built_block_structure_witness :
  block_structure {| n := 201; w := [4294967298; 9223372036854775808;
                                     36028797018963968]; lastrlw := 0 |}.
Proof.
  apply (built_block_structure [0; 200]).
  - vm_compute. reflexivity.
  - vm_compute. reflexivity.
Defined.

(** A successful [Set] on a bitmap built by [Set] calls keeps the block
    structure when the bitmap has fewer than 2^31-1 words. *)
Theorem Set_keeps_block_structure (ps : list Z) (b b' : Bitmap) (pos : Z) :
  sets New ps = Some b -> block_structure b -> len (w b) < 2 ^ 31 - 1 ->
  Bitmap_Set b pos = Done (b', None) -> block_structure b'.
Proof.
  intros Hb Hbs Hlen Hset.
  pose proof (reachable_well_formed b
                (sets_reachable ps New b reachable_New Hb)) as Hwf.
  apply structured_block_structure.
  eapply Set_structured; eauto.
  apply structured_room; [by apply structured_primed|done].
Qed.

Lemma Set_keeps_block_structure_witness :
  block_structure {| n := 201; w := [4294967298; 9223372036854775808;
                                     36028797018963968]; lastrlw := 0 |}.
Proof.
  apply (Set_keeps_block_structure [0] (many_literals 1) _ 200).
  - vm_compute. reflexivity.
  - vm_compute. reflexivity.
  - vm_compute. reflexivity.
  - vm_compute. reflexivity.
Defined.

(** ** [Get] on a bitmap with the block structure *)

Lemma Get_literals_safe ws pos i cnt : forall j acc,
  0 <= i -> 0 <= j -> i + j + Z.of_nat cnt - 1 < len ws ->
  Get_literals ws pos i cnt j acc <> Crash.
Proof.
  induction cnt as [|cnt IH]; intros j acc Hi Hj Hlen; cbn [Get_literals];
    [discriminate|].
  destruct (pos <? add64 acc 64).
  - destruct (index_in_range ws (i + j)) as [x ->]; [lia|discriminate].
  - apply IH; lia.
Qed.

Lemma Get_blocks_end fuel ws pos i acc :
  len ws <= i -> Get_blocks fuel ws pos i acc <> Some Panic.
Proof.
  intros Hi. destruct fuel as [|fuel]; cbn [Get_blocks]; [discriminate|].
  destruct (Z.ltb_spec i (len ws)); [lia|discriminate].
Qed.

Lemma Get_blocks_safe ws pos i j :
  path ws i j ->
  forall r fuel acc, index ws j = Done r -> j + 1 + rlw_l r = len ws ->
    Get_blocks fuel ws pos i acc <> Some Panic.
Proof.
  induction 1 as [i|i r' j Hr' Hp IH]; intros r fuel acc Hr Hend.
  - destruct fuel as [|fuel]; cbn [Get_blocks]; [discriminate|].
    apply index_inv in Hr as Hi. destruct Hi as [Hi _].
    pose proof (rlw_l_range r).
    destruct (i <? len ws); [|discriminate]. rewrite Hr.
    destruct (pos <? add64 acc (mul64 (rlw_k r) 64)); [discriminate|].
    destruct ((rlw_l r >? 0) && _).
    + destruct (Get_literals ws pos i (Z.to_nat (rlw_l r)) 1 _) eqn:Hg;
        [discriminate| |apply Get_blocks_end; lia].
      exfalso. revert Hg. apply Get_literals_safe; lia.
    + apply Get_blocks_end. lia.
  - destruct fuel as [|fuel]; cbn [Get_blocks]; [discriminate|].
    apply index_inv in Hr' as Hi. destruct Hi as [Hi _].
    apply index_inv in Hr as Hj. destruct Hj as [Hj _].
    apply path_le in Hp as Hle. pose proof (rlw_l_range r').
    destruct (i <? len ws); [|discriminate]. rewrite Hr'.
    destruct (pos <? add64 acc (mul64 (rlw_k r') 64)); [discriminate|].
    replace (i + rlw_l r' + 1) with (i + 1 + rlw_l r') by lia.
    destruct ((rlw_l r' >? 0) && _).
    + destruct (Get_literals ws pos i (Z.to_nat (rlw_l r')) 1 _) eqn:Hg;
        [discriminate| |by eapply IH].
      exfalso. revert Hg. apply Get_literals_safe; lia.
    + by eapply IH.
Qed.

(** On a bitmap with the block structure [Get] never reads outside the
    word array: it does not panic, at any position. *)
Theorem Get_no_panic (b : Bitmap) (pos : Z) :
  block_structure b -> exists v, Bitmap_Get b pos = Some (Done v).
Proof.
  intros Hbs.
  assert (Hend : exists res, Bitmap_Get b pos = Some res).
  { unfold Bitmap_Get. destruct (pos >=? n b); [eauto|].
    apply Get_blocks_fuel; [lia|lia|]. unfold len. lia. }
  destruct Hend as [[v|] Hres]; [eauto|].
  exfalso. revert Hres. unfold Bitmap_Get.
  destruct (pos >=? n b); [discriminate|].
  destruct (w b) as [|x ws] eqn:Ew.
  { cbn. discriminate. }
  rewrite <- Ew.
  assert (Hs : structured b).
  { apply block_structure_structured; [by rewrite Ew|done]. }
  destruct Hs as [Hp (r & Hr & Hend)].
  by eapply Get_blocks_safe.
Qed.

Lemma Get_no_panic_witness :
  exists v,
    Bitmap_Get {| n := 201; w := [4294967298; 9223372036854775808;
                                  36028797018963968]; lastrlw := 0 |} 130
    = Some (Done v).
Proof.
  apply (Get_no_panic {| n := 201; w := [4294967298; 9223372036854775808;
                                        36028797018963968]; lastrlw := 0 |}).
  vm_compute. reflexivity.
Defined.

(** ** [Get] decodes the words *)

Lemma land_pow2_testbit x s :
  0 <= s -> negb (Z.land x (2 ^ s) =? 0) = Z.testbit x s.
Proof.
  intros Hs. destruct (Z.testbit x s) eqn:E.
  - apply negb_true_iff, Z.eqb_neq. intros H0.
    apply (f_equal (fun y => Z.testbit y s)) in H0.
    rewrite Z.land_spec, E, Z.pow2_bits_true, Z.bits_0 in H0 by lia. discriminate.
  - apply negb_false_iff, Z.eqb_eq. apply Z.bits_inj'; intros i Hi.
    rewrite Z.land_spec, Z.pow2_bits_eqb, Z.bits_0 by lia.
    destruct (Z.eqb_spec s i) as [<-|]; [by rewrite E|apply andb_false_r].
Qed.

Lemma Get_literals_reads ws pos i cnt : forall j acc,
  0 <= i -> 0 <= j -> 0 <= acc <= pos ->
  pos < acc + 64 * Z.of_nat cnt -> acc + 64 * Z.of_nat cnt < 2 ^ 63 ->
  i + j + Z.of_nat cnt - 1 < len ws ->
  exists word,
    index ws (i + j + (pos - acc) / 64) = Done word /\
    Get_literals ws pos i cnt j acc
    = Return (Z.testbit word (63 - (pos - acc) mod 64)).
Proof.
  induction cnt as [|cnt IH]; intros j acc Hi Hj Hacc Hpos Hmax Hlen; [lia|].
  cbn [Get_literals]. unfold add64.
  rewrite (int64_small (acc + 64)) by (unfold is_int64; lia).
  destruct (Z.ltb_spec pos (acc + 64)) as [Hlt|Hge].
  - assert (E : (pos - acc) / 64 = 0) by zdm.
    assert (E' : (pos - acc) mod 64 = pos - acc) by zdm.
    rewrite E, E', Z.add_0_r.
    destruct (index_in_range ws (i + j)) as [word Hw]; [lia|].
    exists word. rewrite Hw. split; [done|]. f_equal.
    unfold sub64. rewrite int64_small by (unfold is_int64; lia).
    replace (uint64 (63 - uint64 (pos - acc))) with (63 - (pos - acc))
      by (unfold uint64; zdm).
    rewrite shl64_small, Z.mul_1_l;
      [|lia|rewrite Z.mul_1_l; split;
            [apply Z.pow_nonneg; lia|apply Z.pow_lt_mono_r; lia]].
    apply land_pow2_testbit. lia.
  - destruct (IH (j + 1) (acc + 64)) as (word & Hw & Hg); try lia.
    exists word. rewrite Hg. split.
    + rewrite <- Hw. f_equal. zdm.
    + do 2 f_equal. zdm.
Qed.

Lemma chunks_end fuel ws i : len ws <= i -> chunks fuel ws i = [].
Proof.
  intros Hi. destruct fuel as [|fuel]; cbn [chunks]; [done|].
  destruct (index ws i) as [r|] eqn:Hr; [|done].
  apply index_inv in Hr. lia.
Qed.

Lemma bit_at_app pre rest p :
  64 * len pre <= p -> bit_at (pre ++ rest) p = bit_at rest (p - 64 * len pre).
Proof.
  intros Hp. unfold bit_at, len in *.
  assert (0 <= Z.of_nat (length pre)) by lia.
  rewrite lookup_app_r by zdm.
  replace (Z.to_nat (p / 64) - length pre)%nat
    with (Z.to_nat ((p - 64 * Z.of_nat (length pre)) / 64)) by zdm.
  replace ((p - 64 * Z.of_nat (length pre)) mod 64) with (p mod 64) by zdm.
  reflexivity.
Qed.

Lemma bit_at_past cs p : 64 * len cs <= p -> bit_at cs p = false.
Proof.
  intros Hp. unfold bit_at, len in *.
  rewrite lookup_ge_None_2; [done|]. zdm.
Qed.

Lemma testbit_fill (fill : bool) s :
  0 <= s < 64 -> Z.testbit (if fill then allones else 0) s = fill.
Proof.
  intros Hs. destruct fill; [|apply Z.bits_0].
  change allones with (Z.ones 64). apply Z.ones_spec_low. lia.
Qed.

Lemma length_literals (ws : list Z) i l :
  0 <= i -> 0 <= l -> i + 1 + l <= len ws ->
  len (take (Z.to_nat l) (drop (Z.to_nat (i + 1)) ws)) = l.
Proof.
  intros Hi Hl Hlen. unfold len in *. rewrite length_take, length_drop. lia.
Qed.

Lemma Get_blocks_decodes f ws pos : forall i j g acc,
  walk f ws i = Some j -> 0 <= i -> len ws - i < Z.of_nat g ->
  0 <= acc <= pos -> pos < 2 ^ 63 ->
  acc + 64 * len (chunks f ws i) < 2 ^ 63 ->
  Get_blocks g ws pos i acc
  = Some (Done (bit_at (chunks f ws i) (pos - acc))).
Proof.
  induction f as [|f IH]; intros i j g acc; cbn [walk chunks]; [discriminate|].
  destruct (index ws i) as [r|] eqn:Hr; [|discriminate].
  intros Hwalk Hi Hg Hacc Hpos Hmax.
  apply index_inv in Hr as Hir. destruct Hir as [Hir Hlk].
  pose proof (rlw_k_range r) as Hk. pose proof (rlw_l_range r) as Hl.
  set (fill := if rlw_b r then allones else 0) in *.
  set (lits := take (Z.to_nat (rlw_l r)) (drop (Z.to_nat (i + 1)) ws)) in *.
  set (rest := chunks f ws (i + 1 + rlw_l r)) in *.
  assert (Hnext : i + 1 + rlw_l r <= len ws).
  { destruct (Z.eqb_spec (i + 1 + rlw_l r) (len ws)); [lia|].
    destruct (Z.ltb_spec (i + 1 + rlw_l r) (len ws)); [lia|discriminate]. }
  assert (Hll : len lits = rlw_l r) by (apply length_literals; lia).
  assert (Hlr : len (replicate (Z.to_nat (rlw_k r)) fill) = rlw_k r)
    by (unfold len; rewrite length_replicate; lia).
  rewrite !len_app, Hll, Hlr in Hmax.
  assert (0 <= len rest) by (unfold len; lia).
  destruct g as [|g]; [lia|]. cbn [Get_blocks].
  destruct (Z.ltb_spec i (len ws)); [|lia]. rewrite Hr.
  unfold mul64, add64.
  rewrite (int64_small (rlw_k r * 64)) by (unfold is_int64; lia).
  rewrite (int64_small (acc + rlw_k r * 64)) by (unfold is_int64; lia).
  rewrite (int64_small (rlw_l r * 64)) by (unfold is_int64; lia).
  rewrite (int64_small (acc + rlw_k r * 64 + rlw_l r * 64))
    by (unfold is_int64; lia).
  destruct (Z.ltb_spec pos (acc + rlw_k r * 64)) as [Hrun|Hrun].
  { (* inside the run *)
    do 2 f_equal. unfold bit_at.
    rewrite lookup_app_l by (rewrite length_replicate; zdm).
    rewrite lookup_replicate_2 by zdm.
    unfold fill. rewrite testbit_fill by zdm. done. }
  destruct ((rlw_l r >? 0) && (pos <? acc + rlw_k r * 64 + rlw_l r * 64)) eqn:Hc.
  { (* inside the literal words *)
    apply andb_prop in Hc as [_ Hlt]. apply Z.ltb_lt in Hlt.
    destruct (Get_literals_reads ws pos i (Z.to_nat (rlw_l r)) 1
                (acc + rlw_k r * 64)) as (word & Hw & ->); try lia.
    do 2 f_equal.
    rewrite bit_at_app by (rewrite Hlr; lia). rewrite Hlr.
    replace (pos - acc - 64 * rlw_k r) with (pos - (acc + rlw_k r * 64)) by lia.
    unfold bit_at.
    rewrite lookup_app_l by (unfold len in Hll; zdm).
    unfold lits. rewrite lookup_take_lt by zdm. rewrite lookup_drop.
    apply index_inv in Hw as [_ Hw].
    replace (Z.to_nat (i + 1) + Z.to_nat ((pos - (acc + rlw_k r * 64)) / 64))%nat
      with (Z.to_nat (i + 1 + (pos - (acc + rlw_k r * 64)) / 64)) by zdm.
    by rewrite Hw. }
  (* past this block *)
  assert (Hpast : acc + rlw_k r * 64 + rlw_l r * 64 <= pos).
  { apply andb_false_iff in Hc as [Hc|Hc].
    - destruct (Z.gtb_spec (rlw_l r) 0); [discriminate|lia].
    - apply Z.ltb_ge in Hc. lia. }
  replace (i + rlw_l r + 1) with (i + 1 + rlw_l r) by lia.
  rewrite app_assoc, bit_at_app by (rewrite len_app, Hll, Hlr; lia).
  rewrite len_app, Hll, Hlr.
  replace (pos - acc - 64 * (rlw_k r + rlw_l r))
    with (pos - (acc + rlw_k r * 64 + rlw_l r * 64)) by lia.
  destruct (Z.eqb_spec (i + 1 + rlw_l r) (len ws)) as [E|E].
  - unfold rest. rewrite chunks_end by lia.
    destruct g as [|g]; [lia|]. cbn [Get_blocks].
    destruct (Z.ltb_spec (i + 1 + rlw_l r) (len ws)); [lia|].
    reflexivity.
  - destruct (Z.ltb_spec (i + 1 + rlw_l r) (len ws)); [|discriminate].
    subst rest. eapply IH; eauto; lia.
Qed.

(** On a bitmap with the block structure that stands for fewer than 2^57
    chunks, [Get] at a written position returns the bit the words stand
    for: the repeated bit inside a run, the bit of the literal word inside
    the literals, counted from the most significant bit. *)
Theorem Get_decodes (b : Bitmap) (pos : Z) :
  block_structure b -> 0 <= pos < n b -> pos < 2 ^ 63 ->
  64 * len (Bitmap_chunks b) < 2 ^ 63 ->
  Bitmap_Get b pos = Some (Done (bit_at (Bitmap_chunks b) pos)).
Proof.
  intros Hbs Hpos Hmax Hlen. unfold Bitmap_Get, Bitmap_chunks in *.
  destruct (Z.geb_spec pos (n b)); [lia|].
  unfold block_structure in Hbs. destruct (w b) as [|x ws] eqn:Ew.
  { reflexivity. }
  rewrite <- Ew in *.
  rewrite (Get_blocks_decodes (length (w b)) (w b) pos 0 (lastrlw b));
    try done; try lia.
  - by rewrite Z.sub_0_r.
  - unfold len. lia.
Qed.

Lemma Get_decodes_witness :
  Bitmap_Get {| n := 640;
                w := [newRlw false 5 2; 2 ^ 5; 2 ^ 6; newRlw true 1 1;
                      Z.shiftr allones 5; newRlw true 1 0];
                lastrlw := 5 |} 378
  = Some (Done (bit_at
       (Bitmap_chunks {| n := 640;
                         w := [newRlw false 5 2; 2 ^ 5; 2 ^ 6; newRlw true 1 1;
                               Z.shiftr allones 5; newRlw true 1 0];
                         lastrlw := 5 |}) 378)).
Proof.
  apply (Get_decodes {| n := 640;
                        w := [newRlw false 5 2; 2 ^ 5; 2 ^ 6; newRlw true 1 1;
                              Z.shiftr allones 5; newRlw true 1 0];
                        lastrlw := 5 |} 378).
  - vm_compute. reflexivity.
  - vm_compute. split; [discriminate|reflexivity].
  - vm_compute. reflexivity.
  - vm_compute. reflexivity.
Defined.

(** ** Sequences of [Set] calls that skip no chunk *)

Lemma blocks_snoc ws cs r lits :
  blocks ws cs -> len lits = rlw_l r ->
  blocks (ws ++ r :: lits)
         (cs ++ replicate (Z.to_nat (rlw_k r)) (if rlw_b r then allones else 0)
             ++ lits).
Proof.
  intros Hb Hl. induction Hb as [|r0 lits0 rest cs0 Hl0 _ IH]; cbn [app].
  - rewrite <- (app_nil_r lits) at 1.
    rewrite <- (app_nil_r lits) at 2. by apply blocks_cons, blocks_nil.
  - rewrite <- !app_assoc. by apply blocks_cons.
Qed.

Lemma chunks_blocks ws cs :
  blocks ws cs ->
  forall pre f, (length ws <= f)%nat -> chunks f (pre ++ ws) (len pre) = cs.
Proof.
  induction 1 as [|r lits rest cs Hl _ IH]; intros pre f Hf.
  - apply chunks_end. rewrite app_nil_r. lia.
  - destruct f as [|f]; [cbn [length] in Hf; lia|]. cbn [chunks].
    rewrite index_app_len. pose proof (rlw_l_range r) as Hr.
    replace (Z.to_nat (len pre + 1)) with (length (pre ++ [r]))
      by (rewrite length_app; unfold len; cbn [length]; lia).
    replace (pre ++ r :: lits ++ rest) with ((pre ++ [r]) ++ lits ++ rest)
      by (by rewrite <- app_assoc).
    rewrite drop_app_length.
    replace (Z.to_nat (rlw_l r)) with (length lits) by (unfold len in Hl; lia).
    rewrite take_app_length. do 2 f_equal.
    replace ((pre ++ [r]) ++ lits ++ rest) with ((pre ++ r :: lits) ++ rest)
      by (by rewrite <- !app_assoc).
    replace (len pre + 1 + rlw_l r) with (len (pre ++ r :: lits))
      by (rewrite len_app; unfold len in *; cbn [length]; lia).
    apply IH. cbn [length] in Hf. rewrite length_app in Hf. lia.
Qed.

Lemma insert_at_len (pre : list Z) x y t :
  <[Z.to_nat (len pre) := x]> (pre ++ y :: t) = pre ++ x :: t.
Proof.
  unfold len. rewrite Nat2Z.id.
  rewrite <- (Nat.add_0_r (length pre)), insert_app_r. reflexivity.
Qed.

Lemma insert_last (xs : list Z) c v :
  <[Z.to_nat (len (xs ++ [c]) - 1) := v]> (xs ++ [c]) = xs ++ [v].
Proof.
  replace (Z.to_nat (len (xs ++ [c]) - 1)) with (Z.to_nat (len xs))
    by (rewrite len_app; unfold len; cbn [length]; lia).
  apply insert_at_len.
Qed.

Lemma take_last (xs : list Z) c :
  take (Z.to_nat (len (xs ++ [c]) - 1)) (xs ++ [c]) = xs.
Proof.
  replace (Z.to_nat (len (xs ++ [c]) - 1)) with (length xs)
    by (rewrite len_app; unfold len; cbn [length]; lia).
  apply take_app_length.
Qed.

Lemma bit_at_lookup cs x c :
  0 <= x -> cs !! Z.to_nat (x / 64) = Some c ->
  bit_at cs x = Z.testbit c (63 - x mod 64).
Proof. intros Hx Hc. unfold bit_at. by rewrite Hc. Qed.

Lemma idx_of_pos q : 0 <= q -> uint64 (rem64 q 64) = q mod 64.
Proof.
  intros Hq. unfold rem64. rewrite Z.rem_mod_nonneg by lia.
  apply uint64_small. zdm.
Qed.

(** Setting a bit of the last chunk, and appending a chunk with one bit. *)
Lemma bit_at_set_last xs c q x :
  0 <= q -> 0 <= x -> len (xs ++ [c]) = q / 64 + 1 ->
  bit_at (xs ++ [setbit c (q mod 64)]) x = bit_at (xs ++ [c]) x || (x =? q).
Proof.
  intros Hq Hx Hlen. rewrite len_app in Hlen. unfold len in Hlen.
  cbn [length] in Hlen. unfold bit_at.
  destruct (Z.lt_trichotomy (x / 64) (q / 64)) as [Hlt|[Heq|Hgt]].
  - rewrite !lookup_app_l by zdm.
    destruct (Z.eqb_spec x q); [subst; lia|]. by rewrite orb_false_r.
  - rewrite !lookup_app_r by zdm.
    replace (Z.to_nat (x / 64) - length xs)%nat with 0%nat by zdm.
    cbn [lookup list_lookup].
    rewrite setbit_testbit by zdm. f_equal.
    destruct (Z.eqb_spec (63 - x mod 64) (63 - q mod 64)),
      (Z.eqb_spec x q); try done; zdm.
  - rewrite !lookup_ge_None_2 by (rewrite length_app; cbn [length]; zdm).
    destruct (Z.eqb_spec x q); [subst; lia|done].
Qed.

Lemma bit_at_snoc xs q x :
  0 <= q -> 0 <= x -> len xs = q / 64 ->
  bit_at (xs ++ [2 ^ (63 - q mod 64)]) x = bit_at xs x || (x =? q).
Proof.
  intros Hq Hx Hlen. unfold len in Hlen. unfold bit_at.
  destruct (Z.lt_trichotomy (x / 64) (q / 64)) as [Hlt|[Heq|Hgt]].
  - rewrite !lookup_app_l by zdm.
    destruct (Z.eqb_spec x q); [subst; lia|]. by rewrite orb_false_r.
  - rewrite lookup_app_r by zdm. rewrite (lookup_ge_None_2 xs) by zdm.
    replace (Z.to_nat (x / 64) - length xs)%nat with 0%nat by zdm.
    cbn [lookup list_lookup]. rewrite Z.pow2_bits_eqb by zdm.
    destruct (Z.eqb_spec (63 - q mod 64) (63 - x mod 64)),
      (Z.eqb_spec x q); try done; zdm.
  - rewrite !lookup_ge_None_2 by (rewrite ?length_app; cbn [length]; zdm).
    destruct (Z.eqb_spec x q); [subst; lia|done].
Qed.

Lemma dense_size b p S :
  dense_inv b p S -> p < 2 ^ 62 -> Bitmap_size b = (p / 64 + 1) * 64.
Proof.
  intros (Hn & Hp & _) Hmax. rewrite size_spec by lia. rewrite Hn. zdm.
Qed.

Lemma dense_active b pre r lits :
  w b = pre ++ r :: lits -> lastrlw b = len pre ->
  primed b = b /\ index (w (primed b)) (lastrlw (primed b)) = Done r.
Proof.
  intros Hw HL. assert (Hpr : primed b = b)
    by (apply primed_id; rewrite HL; unfold len; lia).
  split; [done|]. rewrite Hpr, Hw, HL. apply index_app_len.
Qed.

Lemma dense_step_next b p S q b' :
  dense_inv b p S -> well_formed b ->
  p < q -> q / 64 = p / 64 + 1 -> q < 2 ^ 62 -> len (w b) < 2 ^ 31 - 2 ->
  Bitmap_Set b q = Done (b', None) ->
  dense_inv b' q (fun x => S x || (x =? q)).
Proof.
  intros Hinv Hwf Hpq Hq Hmax Hlen Hset.
  pose proof (dense_size b p S Hinv ltac:(lia)) as Hsize.
  destruct Hinv as (Hn & Hp & pre & r & lits & cs & Hw & HL & Hl & Hb & Hall & Hbits).
  destruct (dense_active b pre r lits Hw HL) as [Hpr Hr].
  assert (Hur : 0 <= r < 2 ^ 64).
  { rewrite Hpr in Hr. eapply index_uint64; [apply Hwf|exact Hr]. }
  assert (Hll : rlw_l r + 1 < 2 ^ 31 - 1).
  { rewrite <- Hl. rewrite Hw, len_app in Hlen. unfold len in *.
    cbn [length] in Hlen. lia. }
  pose proof (rlw_l_range r) as Hlr.
  rewrite (Set_literal b q r) in Hset; try done; try lia.
  - injection Hset as <-. rewrite Hpr, Hw, HL, insert_at_len.
    rewrite idx_of_pos, setbit_zero by zdm.
    rewrite uint32_small by lia.
    split; [|split; [lia|]].
    { cbn [n]. apply int64_small. unfold is_int64. lia. }
    exists pre, (rlw_setl r (rlw_l r + 1)), (lits ++ [2 ^ (63 - q mod 64)]), cs.
    cbn [w lastrlw].
    rewrite rlw_l_setl, rlw_k_setl, rlw_b_setl by lia.
    split; [by rewrite <- app_assoc|]. split; [done|].
    split; [rewrite len_app; unfold len in *; cbn [length]; lia|].
    split; [done|]. rewrite !app_assoc. rewrite !app_assoc in Hall, Hbits.
    split.
    + rewrite len_app, Hall. unfold len. cbn [length]. lia.
    + intros x Hx. rewrite bit_at_snoc by lia. by rewrite Hbits.
  - rewrite Hsize. zdm.
  - rewrite Hsize. unfold sub64, div64.
    assert (0 <= q - (p / 64 + 1) * 64 < 64) by zdm.
    rewrite (int64_small (q - _)) by (unfold is_int64; lia).
    rewrite Z.quot_small by lia. reflexivity.
  - rewrite uint32_small, maxUint31_eq by lia. lia.
Qed.

Lemma dense_step_inside b p S q b' :
  dense_inv b p S -> well_formed b ->
  p < q -> q / 64 = p / 64 -> q < 2 ^ 62 ->
  Bitmap_Set b q = Done (b', None) ->
  dense_inv b' q (fun x => S x || (x =? q)).
Proof.
  intros Hinv Hwf Hpq Hq Hmax Hset.
  pose proof (dense_size b p S Hinv ltac:(lia)) as Hsize.
  destruct Hinv as (Hn & Hp & pre & r & lits & cs & Hw & HL & Hl & Hb & Hall & Hbits).
  destruct (dense_active b pre r lits Hw HL) as [Hpr Hr].
  assert (Hur : 0 <= r < 2 ^ 64).
  { rewrite Hpr in Hr. eapply index_uint64; [apply Hwf|exact Hr]. }
  pose proof (rlw_l_range r) as Hlr. pose proof (rlw_k_range r) as Hkr.
  assert (Hin : q < Bitmap_size b) by (rewrite Hsize; zdm).
  assert (Hrem : rem64 (n b) 64 <> 0).
  { intros E. rewrite (size_no_partial b (wf_n b Hwf) E) in Hin. lia. }
  destruct (wf_partial b Hwf Hrem) as (Hlt & _).
  destruct lits as [|c lits0 _] using rev_ind.
  { rewrite Hw, HL, len_app in Hlt. unfold len in Hlt. cbn [length] in Hlt. lia. }
  assert (Hw' : w b = (pre ++ r :: lits0) ++ [c]) by (by rewrite Hw, <- app_assoc).
  assert (Hlit : index (w (primed b)) (len (w (primed b)) - 1) = Done c)
    by (rewrite Hpr, Hw'; apply index_last_app).
  rewrite len_app in Hl. unfold len in Hl. cbn [length] in Hl.
  assert (Hn' : add64 q 1 = q + 1) by (apply int64_small; unfold is_int64; lia).
  assert (Hfinal : forall x, 0 <= x ->
    bit_at ((cs ++ replicate (Z.to_nat (rlw_k r))
                             (if rlw_b r then allones else 0) ++ lits0)
            ++ [setbit c (q mod 64)]) x = S x || (x =? q)).
  { intros x Hx. rewrite bit_at_set_last; try lia.
    - rewrite <- !app_assoc. by rewrite Hbits.
    - rewrite <- !app_assoc. rewrite Hall. lia. }
  assert (Hlen' : len ((cs ++ replicate (Z.to_nat (rlw_k r))
                                (if rlw_b r then allones else 0) ++ lits0)
                       ++ [setbit c (q mod 64)]) = q / 64 + 1).
  { rewrite !len_app in *. unfold len in *. cbn [length] in *. lia. }
  destruct (Z.eq_dec (setbit c (uint64 (rem64 q 64))) allones) as [Hones|Hnot].
  - destruct (rlw_b r && (rlw_l r =? 1) && (rlw_k r <? MaxUint32)) eqn:Hc.
    + (* the literal merges into the run *)
      rewrite (Set_merge b q r c) in Hset; try done; try lia.
      injection Hset as <-. rewrite Hpr.
      apply andb_prop in Hc as [Hc Hkm]. apply andb_prop in Hc as [Hrb Hl1].
      apply Z.eqb_eq in Hl1. apply Z.ltb_lt in Hkm. unfold MaxUint32 in Hkm.
      assert (lits0 = []) as -> by (destruct lits0; [done|cbn [length] in Hl; lia]).
      rewrite uint32_small by lia.
      assert (Hs : 0 <= rlw_setk r (rlw_k r + 1) < 2 ^ 64)
        by (apply rlw_setk_range; lia).
      replace (take _ _) with (pre ++ [rlw_setl (rlw_setk r (rlw_k r + 1)) 0]).
      2:{ rewrite Hw'. rewrite insert_last.
          rewrite <- !app_assoc. cbn [app]. rewrite HL, insert_at_len.
          replace (Z.to_nat (len (pre ++ [r; c]) - 1))
            with (length (pre ++ [rlw_setl (rlw_setk r (rlw_k r + 1)) 0]))
            by (rewrite len_app, length_app; unfold len; cbn [length]; lia).
          replace (pre ++ [rlw_setl (rlw_setk r (rlw_k r + 1)) 0; allones])
            with ((pre ++ [rlw_setl (rlw_setk r (rlw_k r + 1)) 0]) ++ [allones])
            by (by rewrite <- app_assoc).
          by rewrite take_app_length. }
      split; [exact Hn'|]. split; [lia|].
      exists pre, (rlw_setl (rlw_setk r (rlw_k r + 1)) 0), [], cs.
      cbn [w lastrlw].
      rewrite rlw_l_setl, rlw_k_setl, rlw_b_setl, rlw_k_setk, rlw_b_setk by lia.
      split; [done|]. split; [done|]. split; [reflexivity|]. split; [done|].
      rewrite Hrb in *. rewrite idx_of_pos in Hones by lia.
      rewrite Hones in Hfinal, Hlen'.
      replace (Z.to_nat (rlw_k r + 1)) with (Datatypes.S (Z.to_nat (rlw_k r))) by lia.
      rewrite replicate_S_end, app_nil_r.
      rewrite app_nil_r in Hfinal, Hlen'.
      rewrite <- app_assoc in Hfinal, Hlen'. done.
    + (* the literal becomes an RLW of its own *)
      rewrite (Set_convert b q r c) in Hset; try done; try lia.
      injection Hset as <-. rewrite Hpr.
      rewrite (uint32_small (rlw_l r - 1)) by lia.
      replace (<[_ := _]> _)
        with ((pre ++ rlw_setl r (rlw_l r - 1) :: lits0) ++ [newRlw true 1 0]).
      2:{ rewrite list_insert_insert_eq. rewrite Hw', insert_last.
          rewrite <- !app_assoc. cbn [app]. rewrite HL, insert_at_len.
          reflexivity. }
      split; [exact Hn'|]. split; [lia|].
      exists (pre ++ rlw_setl r (rlw_l r - 1) :: lits0), (newRlw true 1 0), [],
        (cs ++ replicate (Z.to_nat (rlw_k r)) (if rlw_b r then allones else 0)
            ++ lits0).
      cbn [w lastrlw].
      rewrite rlw_l_newRlw, rlw_k_newRlw, rlw_b_newRlw by lia.
      split; [done|].
      split; [rewrite Hw', !len_app; unfold len; cbn [length]; lia|].
      split; [reflexivity|].
      split.
      { rewrite <- (rlw_k_setl r (rlw_l r - 1)), <- (rlw_b_setl r (rlw_l r - 1))
          by lia.
        apply blocks_snoc; [done|]. rewrite rlw_l_setl by lia. unfold len. lia. }
      rewrite idx_of_pos in Hones by lia. rewrite Hones in Hfinal, Hlen'.
      change (replicate (Z.to_nat 1) allones ++ []) with [allones].
      done.
  - (* the literal is not full yet *)
    rewrite (Set_inside b q r c) in Hset; try done; try lia.
    injection Hset as <-. rewrite Hpr.
    replace (<[_ := _]> _)
      with (pre ++ r :: lits0 ++ [setbit c (q mod 64)]).
    2:{ rewrite Hw', insert_last, idx_of_pos by lia.
        by rewrite <- app_assoc. }
    split; [exact Hn'|]. split; [lia|].
    exists pre, r, (lits0 ++ [setbit c (q mod 64)]), cs. cbn [w lastrlw].
    split; [done|]. split; [done|].
    split; [rewrite len_app; unfold len; cbn [length]; lia|]. split; [done|].
    rewrite !app_assoc. rewrite !app_assoc in Hfinal, Hlen'. done.
Qed.

Lemma dense_inv_ext b p (S S' : Z -> bool) :
  (forall x, S x = S' x) -> dense_inv b p S -> dense_inv b p S'.
Proof.
  intros Hext (Hn & Hp & pre & r & lits & cs & Hw & HL & Hl & Hb & Hall & Hbits).
  split; [done|]. split; [done|]. exists pre, r, lits, cs.
  repeat (split; [done|]). intros x Hx. rewrite <- Hext. by apply Hbits.
Qed.

Lemma dense_step b p S q b' :
  dense_inv b p S -> well_formed b ->
  p < q -> q / 64 <= p / 64 + 1 -> q < 2 ^ 62 -> len (w b) < 2 ^ 31 - 2 ->
  Bitmap_Set b q = Done (b', None) ->
  dense_inv b' q (fun x => S x || (x =? q)).
Proof.
  intros Hinv Hwf Hpq Hq Hmax Hlen Hset.
  assert (Hp : 0 <= p) by apply Hinv.
  destruct (Z.eq_dec (q / 64) (p / 64)) as [E|E].
  - by eapply dense_step_inside.
  - eapply dense_step_next; eauto. zdm.
Qed.

Lemma bit_at_zeros k x : bit_at (replicate k 0) x = false.
Proof.
  unfold bit_at. destruct (replicate k 0 !! Z.to_nat (x / 64)) as [c|] eqn:E;
    [|done].
  apply lookup_replicate_1 in E as [-> _]. apply Z.bits_0.
Qed.

Lemma dense_first p b :
  0 <= p < 64 * 2 ^ 32 -> Bitmap_Set New p = Done (b, None) ->
  dense_inv b p (fun x => x =? p).
Proof.
  intros Hp Hset. rewrite Set_first in Hset by done. injection Hset as <-.
  assert (Hk : 0 <= p / 64 < 2 ^ 32) by zdm.
  split; [reflexivity|]. split; [lia|].
  exists [], (newRlw false (p / 64) 1), [2 ^ (63 - p mod 64)], [].
  cbn [w lastrlw app].
  rewrite rlw_l_newRlw, rlw_k_newRlw, rlw_b_newRlw by lia.
  split; [done|]. split; [done|]. split; [done|]. split; [constructor|]. split.
  - rewrite len_app. unfold len. rewrite length_replicate. cbn [length]. lia.
  - intros x Hx. rewrite bit_at_snoc; try lia.
    + by rewrite bit_at_zeros.
    + unfold len. rewrite length_replicate. lia.
Qed.

Lemma dense_sets ps : forall b p S b',
  dense_inv b p S -> well_formed b -> dense_from p ps ->
  (forall x, S x = true -> x <= p) ->
  p / 64 + Z.of_nat (length ps) < 2 ^ 40 ->
  len (w b) + 3 * Z.of_nat (length ps) < 2 ^ 31 - 2 ->
  sets b ps = Some b' ->
  exists p', dense_inv b' p' (fun x => S x || was_set ps x) /\
             p' / 64 <= p / 64 + Z.of_nat (length ps) /\
             forall x, S x || was_set ps x = true -> x <= p'.
Proof.
  induction ps as [|q ps IH]; intros b p S b' Hinv Hwf Hd Hle Hpos Hlen;
    cbn [sets].
  - intros [= <-]. exists p. split; [|split].
    + eapply dense_inv_ext; [|exact Hinv]. intros x. cbn. by rewrite orb_false_r.
    + cbn [length]. lia.
    + intros x. cbn. rewrite orb_false_r. apply Hle.
  - destruct (Bitmap_Set b q) as [[b1 [e|]]|] eqn:Hset; try discriminate.
    destruct Hd as (Hpq & Hq & Hd). cbn [length] in Hpos, Hlen.
    assert (Hp : 0 <= p) by apply Hinv.
    assert (Hqmax : q < 2 ^ 62) by zdm.
    intros Hsets.
    destruct (IH b1 q (fun x => S x || (x =? q)) b') as (p' & Hinv' & Hp' & Hle');
      try done.
    + eapply dense_step; eauto. lia.
    + by eapply Set_well_formed.
    + intros x Hx. apply orb_prop in Hx as [Hx|Hx].
      * apply Hle in Hx. lia.
      * apply Z.eqb_eq in Hx. lia.
    + lia.
    + pose proof (Set_len b q b1 Hset). lia.
    + exists p'. split; [|split].
      * eapply dense_inv_ext; [|exact Hinv']. intros x. cbn [was_set existsb].
        by rewrite orb_assoc.
      * cbn [length]. lia.
      * intros x Hx. apply Hle'. cbn [was_set existsb] in Hx.
        by rewrite orb_assoc in Hx.
Qed.

Lemma dense_chunks b p S :
  dense_inv b p S ->
  len (Bitmap_chunks b) = p / 64 + 1 /\
  forall x, 0 <= x -> bit_at (Bitmap_chunks b) x = S x.
Proof.
  intros (Hn & Hp & pre & r & lits & cs & Hw & HL & Hl & Hb & Hall & Hbits).
  assert (E : Bitmap_chunks b =
              cs ++ replicate (Z.to_nat (rlw_k r))
                              (if rlw_b r then allones else 0) ++ lits).
  { unfold Bitmap_chunks.
    apply (chunks_blocks (w b) _ (eq_rect_r (fun l => blocks l _)
             (blocks_snoc pre cs r lits Hb Hl) Hw) [] (length (w b))). lia. }
  rewrite E. done.
Qed.

(** C1 holds for runs of [Set] calls that skip no chunk.  After a first
    [Set] below 2^38 and fewer than 2^28 further calls, each in the chunk
    of the call before or in the next chunk, [Get] at a position from 0 on
    returns true exactly at the positions that were set. *)
Theorem Get_after_dense_Sets (p : Z) (ps : list Z) (b : Bitmap) (q : Z) :
  0 <= p < 2 ^ 38 -> dense_from p ps -> Z.of_nat (length ps) < 2 ^ 28 ->
  sets New (p :: ps) = Some b -> 0 <= q ->
  Bitmap_Get b q = Some (Done (was_set (p :: ps) q)).
Proof.
  intros Hp Hd Hlen Hb Hq.
  assert (Hbs : block_structure b).
  { apply (sets_structured (p :: ps) New b);
      [apply New_well_formed|reflexivity| |exact Hb].
    change (len (w New)) with 0. cbn [length]. lia. }
  cbn [sets] in Hb.
  destruct (Bitmap_Set New p) as [[b0 [e|]]|] eqn:Hset; try discriminate.
  pose proof (dense_first p b0 ltac:(lia) Hset) as Hinv0.
  assert (Hwf0 : well_formed b0)
    by (eapply Set_well_formed; [apply New_well_formed|done]).
  destruct (dense_sets ps b0 p (fun x => x =? p) b Hinv0 Hwf0 Hd)
    as (p' & Hinv & Hbound & Hle); try done.
  - intros x Hx. apply Z.eqb_eq in Hx. lia.
  - zdm.
  - pose proof (Set_len New p b0 Hset) as Hl0.
    change (len (w New)) with 0 in Hl0. lia.
  - change (was_set (p :: ps) q) with ((q =? p) || was_set ps q).
    destruct (dense_chunks b p' _ Hinv) as [Hcl Hbits].
    assert (Hn : n b = p' + 1) by apply Hinv.
    assert (Hp' : 0 <= p') by apply Hinv.
    destruct (Z.lt_ge_cases q (n b)) as [Hlt|Hge].
    + assert (Hsz : 64 * len (Bitmap_chunks b) < 2 ^ 63).
      { rewrite Hcl. zdm. }
      assert (Hq63 : q < 2 ^ 63) by zdm.
      rewrite <- Hbits by done. clear Hbits Hcl.
      unfold Bitmap_Get, Bitmap_chunks in *.
      destruct (Z.geb_spec q (n b)); [lia|].
      unfold block_structure in Hbs. destruct (w b) as [|x ws] eqn:Ew.
      { reflexivity. }
      rewrite <- Ew in *.
      rewrite (Get_blocks_decodes (length (w b)) (w b) q 0 (lastrlw b));
        try done; try lia.
      * by rewrite Z.sub_0_r.
      * unfold len. lia.
    + unfold Bitmap_Get. destruct (Z.geb_spec q (n b)); [|lia]. do 2 f_equal.
      destruct ((q =? p) || was_set ps q) eqn:E; [|done].
      apply Hle in E. lia.
Qed.

Lemma Get_after_dense_Sets_witness :
  Bitmap_Get {| n := 131;
                w := [3; 1441151880758558720; 144115188075855872;
                      2305843009213693952];
                lastrlw := 0 |} 70
  = Some (Done (was_set [3; 5; 70; 130] 70)).
Proof.
  apply (Get_after_dense_Sets 3 [5; 70; 130]).
  - lia.
  - unfold dense_from. repeat split; (lia || (vm_compute; congruence)).
  - vm_compute. reflexivity.
  - vm_compute. reflexivity.
  - lia.
Defined.
